(** * Replication checkpoints (Replicator/Checkpoint.cc)

    A shallow embedding of [litecore::repl::Checkpoint]: the sparse set of
    completed sequences, the remote sequence marker, the JSON form of a
    checkpoint and the reconciliation of a local checkpoint with the copy
    kept by the peer ([validateWith]).

    Sequence numbers are [C4SequenceNumber], an unsigned 64-bit integer;
    they are represented by [Z] and every arithmetic operation of the source
    is written with its wrap-around ([u64]). *)

From Stdlib Require Import ZArith List Bool String Ascii Lia.
From Stdlib Require Import DecimalString.
Import ListNotations.
Open Scope Z_scope.
Set Warnings "-register-all".

(** ** Machine integers *)

Definition two64 : Z := 2 ^ 64.

(** Reduction of an integer to [uint64_t]. *)
Definition u64 (z : Z) : Z := z mod two64.

(** Reinterpretation of 64 bits as [int64_t]. *)
Definition i64 (z : Z) : Z := (z + 2 ^ 63) mod two64 - 2 ^ 63.

Definition is_u64 (z : Z) : Prop := 0 <= z < two64.

(** Decimal rendering of an integer, as [operator<<] and the JSON encoder
    write it. *)
Definition decimal (z : Z) : string := NilZero.string_of_int (Z.to_int z).

(** ** SequenceSet *)

Module SequenceSet.

(** Modelled from the spec: the class [SequenceSet] (SequenceSet.hh) is not
    part of the translated file.  It is "an ordered set of disjoint
    half-open integer intervals"; the ranges [[first, last)] are kept in
    ascending order, as the iteration of the source yields them. *)
Definition t : Type := list (Z * Z).

(** Modelled from the spec: [empty()] is "true iff zero ranges". *)
Definition empty (s : t) : bool :=
  match s with [] => true | _ => false end.

(** Modelled from the spec: [clear()] leaves no range. *)
Definition clear (s : t) : t := [].

(** Modelled from the spec: [rangesCount()] is the "number of disjoint ranges
    currently stored". *)
Definition rangesCount (s : t) : Z := Z.of_nat (List.length s).

(** A sequence lies in the half-open range [[first, last)]. *)
Definition in_range (r : Z * Z) (x : Z) : bool :=
  (fst r <=? x) && (x <? snd r).

(** Modelled from the spec: the sequence numbers a set holds are those of its
    ranges. *)
Definition contains (s : t) (x : Z) : bool := existsb (fun r => in_range r x) s.

(** Modelled from the spec: [add(first, last)] "inserts the half-open
    interval, merging with any existing ranges it overlaps or touches,
    producing the canonical minimal form". *)
Fixpoint add_range (a b : Z) (s : t) : t :=
  match s with
  | [] => [(a, b)]
  | (c, d) :: rest =>
      if b <? c then (a, b) :: (c, d) :: rest
      else if d <? a then (c, d) :: add_range a b rest
      else add_range (Z.min a c) (Z.max b d) rest
  end.

(** Modelled from the spec: [add(first, last)] with [first >= last] is a
    no-op. *)
Definition add (a b : Z) (s : t) : t :=
  if a <? b then add_range a b s else s.

(** What is left of the range [[a, b)] without its sequence [x]: two ranges
    when [x] is strictly inside, one when it is an endpoint, none when it is
    the sole sequence. *)
Definition without (a b x : Z) : t :=
  (if a <? x then [(a, x)] else []) ++ (if x + 1 <? b then [(x + 1, b)] else []).

(** Modelled from the spec: [remove(seq)] "removes exactly one sequence
    number, splitting a containing range if [seq] is strictly interior";
    an endpoint shrinks the range, the sole element of a range deletes it,
    and a sequence that is not present changes nothing. *)
Fixpoint remove (x : Z) (s : t) : t :=
  match s with
  | [] => []
  | (a, b) :: rest =>
      if x <? a then (a, b) :: rest
      else if x <? b then without a b x ++ rest
      else (a, b) :: remove x rest
  end.

(** The sequences common to the ranges [[a, b)] and [[c, d)]. *)
Definition overlap (a b c d : Z) : t :=
  if Z.max a c <? Z.min b d then [(Z.max a c, Z.min b d)] else [].

(** Modelled from the spec: [intersection(A, B)] returns "a new set
    containing only sequence numbers present in both inputs' confirmed
    ranges".  Both range lists are walked in ascending order; the range
    that ends first is left behind. *)
Fixpoint intersection (s1 s2 : t) : t :=
  match s1 with
  | [] => []
  | (a, b) :: rest1 =>
      (fix walk (s2 : t) : t :=
         match s2 with
         | [] => []
         | (c, d) :: rest2 =>
             overlap a b c d
               ++ (if b <=? d then intersection rest1 s2 else walk rest2)
         end) s2
  end.

Definition range_eqb (r1 r2 : Z * Z) : bool :=
  (fst r1 =? fst r2) && (snd r1 =? snd r2).

(** Modelled from the spec: equality of [SequenceSet], "two sets are equal
    iff they contain exactly the same canonical ranges". *)
Fixpoint eqb (s1 s2 : t) : bool :=
  match s1, s2 with
  | [], [] => true
  | r1 :: q1, r2 :: q2 => range_eqb r1 r2 && eqb q1 q2
  | _, _ => false
  end.

(** [SequenceSet::to_string] (Checkpoint.cc): the ranges separated by a
    comma, a range of one sequence as that number, a longer one as
    [first-last] with the last sequence included. *)
Definition range_to_string (r : Z * Z) : string :=
  (decimal (u64 (fst r)%Z)
     ++ (if (snd r =? u64 (fst r + 1))%Z then ""
         else "-" ++ decimal (u64 (snd r - 1)%Z)))%string.

Fixpoint ranges_to_string (n : nat) (s : t) : string :=
  match s with
  | [] => ""
  | r :: rest =>
      ((if (0 <? n)%nat then ", " else "") ++ range_to_string r
         ++ ranges_to_string (S n) rest)%string
  end.

Definition to_string (s : t) : string :=
  ("[" ++ ranges_to_string 0 s ++ "]")%string.

(** The representation invariant of the spec: ranges ascending, each with
    [first < last], no two touching or overlapping, all within
    [uint64_t]. *)
Fixpoint wf_after (lo : Z) (s : t) : Prop :=
  match s with
  | [] => True
  | (a, b) :: rest => lo < a /\ a < b /\ b < two64 /\ wf_after b rest
  end.

Definition wf (s : t) : Prop := wf_after (-1) s.

End SequenceSet.

(** ** Fleece values

    The structured values the JSON encoder and parser of Fleece exchange with
    the checkpoint.  An integer node carries its value; arrays and
    dictionaries carry their items in document order; every other node
    (string, boolean, null; floating-point numbers are outside the model) is
    carried by its JSON text. *)

Inductive Value : Type :=
| VInt (z : Z)
| VRaw (json : string)
| VArray (items : list Value)
| VDict (entries : list (string * Value)).

Definition Dict : Type := list (string * Value).

Definition dquote : string := String "034"%char EmptyString.

(** [Value::toJSON]. *)
Fixpoint Value_toJSON (v : Value) : string :=
  match v with
  | VInt z => decimal z
  | VRaw json => json
  | VArray items =>
      ("["
         ++ (fix go (l : list Value) : string :=
               match l with
               | [] => ""
               | x :: rest =>
                   Value_toJSON x
                     ++ match rest with [] => "" | _ => "," ++ go rest end
               end) items
         ++ "]")%string
  | VDict entries =>
      ("{"
         ++ (fix go (l : list (string * Value)) : string :=
               match l with
               | [] => ""
               | (k, x) :: rest =>
                   dquote ++ k ++ dquote ++ ":" ++ Value_toJSON x
                     ++ match rest with [] => "" | _ => "," ++ go rest end
               end) entries
         ++ "}")%string
  end.

(** The accessors are total: on a missing value (a null [Value], here
    [None]) or a value of another type they return 0 or null. *)
Definition isInteger (v : option Value) : bool :=
  match v with Some (VInt _) => true | _ => false end.

Definition asInt (v : option Value) : Z :=
  match v with Some (VInt z) => i64 z | _ => 0 end.

Definition asUnsigned (v : option Value) : Z := u64 (asInt v).

Definition asArray (v : option Value) : option (list Value) :=
  match v with Some (VArray items) => Some items | _ => None end.

Definition asDict (v : option Value) : option Dict :=
  match v with Some (VDict entries) => Some entries | _ => None end.

(** [dict[key]]. *)
Fixpoint dict_get (d : Dict) (key : string) : option Value :=
  match d with
  | [] => None
  | (k, v) :: rest => if String.eqb k key then Some v else dict_get rest key
  end.

(** ** RemoteSequence *)

Module RemoteSequence.

(** Modelled from the spec: the class [RemoteSequence] (RemoteSequence.hh)
    is not part of the translated file.  A marker is "either empty (no
    remote progress known), an integer, or an opaque token", the tagged
    variant [Empty | Integer(u64) | Token(bytes)] of the design notes. *)
Inductive t : Type :=
| Empty
| Integer (n : Z)
| Token (bytes : string).

(** Modelled from the spec: "if the value is an unsigned/signed integer,
    store as numeric; otherwise store the raw serialized form as an opaque
    token; absence of a value yields the empty marker". *)
Definition of_value (v : option Value) : t :=
  if isInteger v then Integer (asUnsigned v)
  else match v with
       | None => Empty
       | Some other => Token (Value_toJSON other)
       end.

(** Modelled from the spec: [explicit operator bool] of [RemoteSequence],
    "emptiness is no value was ever set". *)
Definition nonempty (r : t) : bool :=
  match r with Empty => false | _ => true end.

(** Modelled from the spec: [isInt()], the marker is numeric. *)
Definition isInt (r : t) : bool :=
  match r with Integer _ => true | _ => false end.

(** Modelled from the spec: [intValue()] "fails with TypeError-equivalent if
    not numeric"; [None] is that failure. *)
Definition intValue (r : t) : option Z :=
  match r with Integer n => Some n | _ => None end.

(** Modelled from the spec: equality of [RemoteSequence], "equality compares
    by underlying representation". *)
Definition eqb (r1 r2 : t) : bool :=
  match r1, r2 with
  | Empty, Empty => true
  | Integer n1, Integer n2 => n1 =? n2
  | Token b1, Token b2 => String.eqb b1 b2
  | _, _ => false
  end.

(** Modelled from the spec: [toJSON()] of [RemoteSequence], it "serializes
    back to the same structured representation it was parsed from (numeric
    stays numeric, token stays token)". *)
Definition toJSON (r : t) : string :=
  match r with
  | Empty => ""
  | Integer n => decimal n
  | Token bytes => bytes
  end.

(** Modelled from the spec: [toJSONString()], the same text as a string. *)
Definition toJSONString (r : t) : string := toJSON r.

(** The node that the JSON text of a marker denotes: what the encoder holds
    after [writeRaw(_remote.toJSON())]. *)
Definition toValue (r : t) : Value :=
  match r with
  | Integer n => VInt n
  | other => VRaw (toJSON other)
  end.

(** A numeric marker is a [uint64_t]. *)
Definition wf (r : t) : Prop :=
  match r with Integer n => is_u64 n | _ => True end.

End RemoteSequence.

(** ** Checkpoint *)

Record Checkpoint : Type := mkCheckpoint {
  _completed : SequenceSet.t;
  _lastChecked : Z;
  _remote : RemoteSequence.t
}.

(** Lines sent to the log ([LogError], [LogTo(SyncLog, ...)], [Warn]). *)
Inductive LogLine : Type :=
| LogError (msg : string)
| LogInfo (msg : string)
| LogWarn (msg : string).

(** The non-const methods of [Checkpoint] run on the object and may log:
    a state monad over the checkpoint that also collects the log lines. *)
Definition M (A : Type) : Type := Checkpoint -> A * Checkpoint * list LogLine.

Definition ret {A} (a : A) : M A := fun c => (a, c, []).

Definition bind {A B} (m : M A) (k : A -> M B) : M B :=
  fun c =>
    let '(a, c1, l1) := m c in
    let '(b, c2, l2) := k a c1 in
    (b, c2, l1 ++ l2).

Notation "x <- m ;; k" := (bind m (fun x => k))
  (at level 61, m at next level, right associativity).
Notation "m ;; k" := (bind m (fun _ => k))
  (at level 61, right associativity).

Definition get : M Checkpoint := fun c => (c, c, []).
Definition log (l : LogLine) : M unit := fun c => (tt, c, [l]).

Definition set_completed (s : SequenceSet.t) : M unit :=
  fun c => (tt, mkCheckpoint s (_lastChecked c) (_remote c), []).
Definition set_lastChecked (n : Z) : M unit :=
  fun c => (tt, mkCheckpoint (_completed c) n (_remote c), []).
Definition set_remote (r : RemoteSequence.t) : M unit :=
  fun c => (tt, mkCheckpoint (_completed c) (_lastChecked c) r, []).

(** The value returned, the object afterwards and the lines logged. *)
Definition returned {A} (r : A * Checkpoint * list LogLine) : A := fst (fst r).
Definition after {A} (r : A * Checkpoint * list LogLine) : Checkpoint := snd (fst r).
Definition logged {A} (r : A * Checkpoint * list LogLine) : list LogLine := snd r.

Definition resetLocal : M unit :=
  c <- get ;;
  set_completed (SequenceSet.clear (_completed c)) ;;
  c <- get ;;
  set_completed (SequenceSet.add 0 1 (_completed c)) ;;
  set_lastChecked 0.

(** A checkpoint as its constructor leaves it. *)
Definition new_checkpoint : Checkpoint :=
  after (resetLocal (mkCheckpoint [] 0 RemoteSequence.Empty)).

(** [localMinSequence]; [None] is the failure of
    [assert(!_completed.empty())]. *)
Definition localMinSequence (c : Checkpoint) : option Z :=
  match _completed c with
  | [] => None
  | (_, last) :: _ => Some (u64 (last - 1))
  end.

(** The loop of [toJSON] over the ranges: first and length of each. *)
Fixpoint write_ranges (s : SequenceSet.t) : list Value :=
  match s with
  | [] => []
  | (first, last) :: rest =>
      VInt (u64 first) :: VInt (u64 (last - first)) :: write_ranges rest
  end.

(** The dictionary [toJSON] writes.  [gWriteTimestamps] is the global flag
    of the source and [now] the value of [c4_now()], both read at the call. *)
Definition toDict (gWriteTimestamps : bool) (now : Z) (c : Checkpoint) : option Dict :=
  match localMinSequence c with
  | None => None
  | Some minSeq =>
      Some
        ((if gWriteTimestamps then [("time"%string, VInt (Z.quot (i64 now) 1000))] else [])
           ++ (if 0 <? minSeq then [("local"%string, VInt (u64 minSeq))] else [])
           ++ (if 1 <? SequenceSet.rangesCount (_completed c)
               then [("localCompleted"%string, VArray (write_ranges (_completed c)))]
               else [])
           ++ (if RemoteSequence.nonempty (_remote c)
               then [("remote"%string, RemoteSequence.toValue (_remote c))]
               else []))
  end.

Definition toJSON (gWriteTimestamps : bool) (now : Z) (c : Checkpoint) : option string :=
  option_map (fun d => Value_toJSON (VDict d)) (toDict gWriteTimestamps now c).

(** The loop of [readDict] over the array: two values at a time, a range
    start and a length.  Past the end of an array of odd length the iterator
    yields a null value, which reads as 0. *)
Fixpoint read_ranges (pending : list Value) (s : SequenceSet.t) : SequenceSet.t :=
  match pending with
  | [] => s
  | [v] =>
      let first := asUnsigned (Some v) in
      let last := asUnsigned None in
      SequenceSet.add first (u64 (first + last)) s
  | v1 :: v2 :: rest =>
      let first := asUnsigned (Some v1) in
      let last := asUnsigned (Some v2) in
      read_ranges rest (SequenceSet.add first (u64 (first + last)) s)
  end.

Definition readDict (root : option Dict) : M unit :=
  resetLocal ;;
  set_remote RemoteSequence.Empty ;;
  match root with
  | None => ret tt
  | Some root =>
      set_remote (RemoteSequence.of_value (dict_get root "remote")) ;;
      match asArray (dict_get root "localCompleted") with
      | Some pending =>
          c <- get ;;
          set_completed (read_ranges pending (_completed c))
      | None =>
          let minSequence := u64 (asInt (dict_get root "local")) in
          c <- get ;;
          set_completed (SequenceSet.add 0 (u64 (minSequence + 1)) (_completed c))
      end
  end.

(** [readJSON].  [fromJSON] is the JSON parser of Fleece ([Doc::fromJSON]
    with no error pointer): it returns the root of the document, or nothing
    when the text does not parse.  [json] is [None] for a null slice. *)
Definition readJSON (fromJSON : string -> option Value) (json : option string) : M unit :=
  root <- match json with
          | Some text =>
              let root := fromJSON text in
              match root with
              | None => log (LogError ("Unparseable checkpoint: " ++ text))
              | Some _ => ret tt
              end ;;
              ret root
          | None => ret None
          end ;;
  readDict (asDict root).

Definition validateWith (remoteSequences : Checkpoint) : M bool :=
  let match_ := true in
  c <- get ;;
  match_ <- (if negb (SequenceSet.eqb (_completed c) (_completed remoteSequences))
             then
               log (LogInfo ("Local sequence mismatch: I had completed: "
                               ++ SequenceSet.to_string (_completed c)
                               ++ ", remote had "
                               ++ SequenceSet.to_string (_completed remoteSequences)
                               ++ ".")) ;;
               log (LogInfo "Rolling back to a failsafe, some redundant changes may be proposed...") ;;
               set_completed
                 (SequenceSet.intersection (_completed c) (_completed remoteSequences)) ;;
               ret false
             else ret match_) ;;
  c <- get ;;
  if RemoteSequence.nonempty (_remote c)
     && negb (RemoteSequence.eqb (_remote c) (_remote remoteSequences))
  then
    log (LogInfo ("Remote sequence mismatch: I had '"
                    ++ RemoteSequence.toJSONString (_remote c)
                    ++ "', remote had '"
                    ++ RemoteSequence.toJSONString (_remote remoteSequences)
                    ++ "'")) ;;
    match RemoteSequence.intValue (_remote c),
          RemoteSequence.intValue (_remote remoteSequences) with
    | Some mine, Some theirs =>
        if theirs <? mine
        then
          log (LogInfo "Rolling back to earlier remote sequence from server, some redundant changes may be proposed...") ;;
          set_remote (_remote remoteSequences) ;;
          ret false
        else
          log (LogInfo "Ignoring remote sequence on server since client side is older, some redundant changes may be proposed...") ;;
          ret match_
    | _, _ =>
        log (LogWarn "Non-numeric remote sequence detected, resetting replication back to start.  Redundant changes will be proposed...") ;;
        set_remote RemoteSequence.Empty ;;
        ret false
    end
  else ret match_.

Definition addPendingSequence (s : Z) : M unit :=
  c <- get ;;
  set_lastChecked (Z.max (_lastChecked c) s) ;;
  c <- get ;;
  set_completed (SequenceSet.remove s (_completed c)).

(** The loop of [pendingSequenceCount]: the gaps in front of each range. *)
Fixpoint count_gaps (s : SequenceSet.t) (count end_ : Z) : Z * Z :=
  match s with
  | [] => (count, end_)
  | (first, last) :: rest => count_gaps rest (u64 (count + u64 (first - end_))) last
  end.

Definition pendingSequenceCount (c : Checkpoint) : Z :=
  let '(count, end_) := count_gaps (_completed c) 0 0 in
  if u64 (end_ - 1) <? _lastChecked c
  then u64 (count + u64 (_lastChecked c - u64 (end_ - 1)))
  else count.

Definition setRemoteMinSequence (s : RemoteSequence.t) : M bool :=
  c <- get ;;
  if RemoteSequence.eqb s (_remote c) then ret false
  else set_remote s ;; ret true.

(** ** Notions used in the statements *)

(** The sentinel invariant: the completed set is in canonical form and holds
    the sentinel sequence 0. *)
Definition has_sentinel (c : Checkpoint) : Prop :=
  SequenceSet.wf (_completed c) /\ SequenceSet.contains (_completed c) 0 = true.

(** The mutations of the completed set a replicator performs on a checkpoint:
    [add] and [remove] of [SequenceSet] on [_completed], and
    [addPendingSequence]. *)
Inductive Op : Type :=
| OpAdd (first last : Z)
| OpRemove (s : Z)
| OpAddPending (s : Z).

Definition apply_op (o : Op) (c : Checkpoint) : Checkpoint :=
  match o with
  | OpAdd first last =>
      mkCheckpoint (SequenceSet.add first last (_completed c)) (_lastChecked c) (_remote c)
  | OpRemove s =>
      mkCheckpoint (SequenceSet.remove s (_completed c)) (_lastChecked c) (_remote c)
  | OpAddPending s => after (addPendingSequence s c)
  end.

Definition run (ops : list Op) (c : Checkpoint) : Checkpoint :=
  fold_left (fun c o => apply_op o c) ops c.

(** The arguments of an operation are sequence numbers. *)
Definition op_u64 (o : Op) : Prop :=
  match o with
  | OpAdd first last => is_u64 first /\ is_u64 last
  | OpRemove s | OpAddPending s => is_u64 s
  end.

(** The operation does not remove the sentinel sequence 0. *)
Definition op_keeps_sentinel (o : Op) : Prop :=
  match o with
  | OpAdd _ _ => True
  | OpRemove s | OpAddPending s => s <> 0
  end.

(** The pending count as the specification words it: "sum of gap sizes
    between consecutive confirmed ranges, plus the tail from the end of the
    last confirmed range up to [lastChecked] (if [lastChecked] extends beyond
    it)". *)
Fixpoint gaps_between (s : SequenceSet.t) : Z :=
  match s with
  | (_, last) :: (((first, _) :: _) as rest) => (first - last) + gaps_between rest
  | _ => 0
  end.

Definition last_end (s : SequenceSet.t) : Z := snd (List.last s (0, 0)).

Definition tail_pending (c : Checkpoint) : Z :=
  let last_completed := last_end (_completed c) - 1 in
  if last_completed <? _lastChecked c then _lastChecked c - last_completed else 0.

Definition pending_spec (c : Checkpoint) : Z :=
  gaps_between (_completed c) + tail_pending c.

(** Reading an array as the specification words it: "successive
    (first, length) pairs", [add(first, first+length)] for each. *)
Definition add_pairs (pairs : list (Z * Z)) (s : SequenceSet.t) : SequenceSet.t :=
  fold_left (fun s p => SequenceSet.add (fst p) (u64 (fst p + snd p)) s) pairs s.

Definition flatten_pairs (pairs : list (Z * Z)) : list Value :=
  flat_map (fun p => [VInt (fst p); VInt (snd p)]) pairs.

(** A stand-in for the parser in examples: it knows a finite list of
    documents and returns the one whose JSON text it is given. *)
Definition parser_of (docs : list Value) (text : string) : option Value :=
  find (fun v => String.eqb (Value_toJSON v) text) docs.

(** The checkpoints of the reconciliation example of the specification. *)
Definition local_5_10 : Checkpoint :=
  mkCheckpoint [(0, 1); (5, 10)] 9 RemoteSequence.Empty.
Definition peer_5_8 : Checkpoint :=
  mkCheckpoint [(0, 1); (5, 8)] 7 RemoteSequence.Empty.

(** A sparse checkpoint with a numeric remote marker, and the dictionary
    written for it at time 1000000 ms. *)
Definition remote_7 : Checkpoint := mkCheckpoint [] 0 (RemoteSequence.Integer 7).
Definition sparse_ops : list Op := [OpAdd 5 8; OpAddPending 6; OpAdd 1 3].
Definition sparse_doc : Dict :=
  [("time"%string, VInt 1000);
   ("local"%string, VInt 2);
   ("localCompleted"%string,
    VArray [VInt 0; VInt 3; VInt 5; VInt 1; VInt 7; VInt 1]);
   ("remote"%string, VInt 7)].

(** The number of sequences a set holds. *)
Fixpoint completed_count (s : SequenceSet.t) : Z :=
  match s with
  | [] => 0
  | (first, last) :: rest => (last - first) + completed_count rest
  end.

(** The range a (first, length) pair of a [localCompleted] array stands for
    holds the sequence [x]; the end is computed in [uint64_t]. *)
Definition pair_covers (x : Z) (p : Z * Z) : bool :=
  (fst p <=? x) && (x <? u64 (fst p + snd p)).

(** The (first, length) pair [toJSON] writes for a range. *)
Definition range_pair (r : Z * Z) : Z * Z := (fst r, snd r - fst r).

(** An opened sparse checkpoint and a peer copy with numeric markers. *)
Definition local_100 : Checkpoint :=
  mkCheckpoint [(0, 3); (5, 10)] 12 (RemoteSequence.Integer 100).
Definition peer_50 : Checkpoint :=
  mkCheckpoint [(0, 4); (7, 12)] 11 (RemoteSequence.Integer 50).

(** * Examples *)

Example add_touching :
  SequenceSet.add 1 5 [(0, 1); (5, 8)] = [(0, 8)].
Proof. reflexivity. Qed.

Example remove_interior :
  SequenceSet.remove 6 [(0, 1); (5, 8)] = [(0, 1); (5, 6); (7, 8)].
Proof. reflexivity. Qed.

Example remove_sole :
  SequenceSet.remove 0 [(0, 1); (5, 8)] = [(5, 8)].
Proof. reflexivity. Qed.

Example intersection_example :
  SequenceSet.intersection [(0, 5)] [(0, 1); (3, 8)] = [(0, 1); (3, 5)].
Proof. reflexivity. Qed.

Example to_string_example :
  SequenceSet.to_string [(0, 1); (5, 10); (12, 13)] = "[0, 5-9, 12]"%string.
Proof. reflexivity. Qed.

Example resetLocal_sentinel :
  _completed new_checkpoint = [(0, 1)]
  /\ _lastChecked new_checkpoint = 0
  /\ localMinSequence new_checkpoint = Some 0.
Proof. repeat split. Qed.

Example validateWith_matching :
  validateWith peer_5_8 peer_5_8 = (true, peer_5_8, []).
Proof. reflexivity. Qed.

Example validateWith_local_newer :
  let r := validateWith (mkCheckpoint [(0, 1)] 0 (RemoteSequence.Integer 50))
             (mkCheckpoint [(0, 1)] 0 (RemoteSequence.Integer 100)) in
  _remote (after r) = RemoteSequence.Integer 50 /\ returned r = false.
Proof. split; reflexivity. Qed.

Example validateWith_local_older :
  let r := validateWith (mkCheckpoint [(0, 1)] 0 (RemoteSequence.Integer 100))
             (mkCheckpoint [(0, 1)] 0 (RemoteSequence.Integer 50)) in
  _remote (after r) = RemoteSequence.Integer 50 /\ returned r = true.
Proof. split; reflexivity. Qed.

Example validateWith_opaque_mismatch :
  let r := validateWith (mkCheckpoint [(0, 1)] 0 (RemoteSequence.Token "tokenB"))
             (mkCheckpoint [(0, 1)] 0 (RemoteSequence.Token "tokenA")) in
  _remote (after r) = RemoteSequence.Empty /\ returned r = false.
Proof. split; reflexivity. Qed.

Example toJSON_sparse :
  toJSON true 1000000 (run sparse_ops (after (resetLocal remote_7)))
  = Some (Value_toJSON (VDict sparse_doc)).
Proof. reflexivity. Qed.

Example setRemoteMinSequence_changed :
  setRemoteMinSequence (RemoteSequence.Integer 7) new_checkpoint
  = (true, mkCheckpoint [(0, 1)] 0 (RemoteSequence.Integer 7), [])
  /\ returned (setRemoteMinSequence (RemoteSequence.Integer 7) remote_7) = false.
Proof. split; reflexivity. Qed.

(** * Facts about sequence sets *)

(** Case analysis on the integer comparisons of a goal. *)
Ltac cmp :=
  repeat match goal with
    | |- context [?a <? ?b] => destruct (Z.ltb_spec a b)
    | |- context [?a <=? ?b] => destruct (Z.leb_spec a b)
    | |- context [?a =? ?b] => destruct (Z.eqb_spec a b)
    end.

Ltac cmp_in H :=
  repeat match type of H with
    | context [?a <? ?b] => destruct (Z.ltb_spec a b)
    | context [?a <=? ?b] => destruct (Z.leb_spec a b)
    | context [?a =? ?b] => destruct (Z.eqb_spec a b)
    end.

Module SequenceSetFacts.
Import SequenceSet.

Lemma in_range_iff r x : in_range r x = true <-> fst r <= x < snd r.
Proof. unfold in_range. rewrite andb_true_iff, Z.leb_le, Z.ltb_lt. tauto. Qed.

Lemma contains_cons a b s x :
  contains ((a, b) :: s) x = ((a <=? x) && (x <? b)) || contains s x.
Proof. reflexivity. Qed.

Lemma contains_app s1 s2 x :
  contains (s1 ++ s2) x = contains s1 x || contains s2 x.
Proof. unfold contains. apply existsb_app. Qed.

Lemma set_eqb_eq s1 s2 : eqb s1 s2 = true <-> s1 = s2.
Proof.
  revert s2. induction s1 as [|[a b] q1 IH]; intros [|[c d] q2]; simpl;
    try (split; [discriminate | congruence]); try tauto.
  unfold range_eqb; simpl.
  rewrite !andb_true_iff, !Z.eqb_eq, IH.
  split; [intros [[-> ->] ->]; reflexivity | intros E; inversion E; auto].
Qed.

Lemma set_eqb_refl s : eqb s s = true.
Proof. apply set_eqb_eq. reflexivity. Qed.

Lemma set_eqb_neq s1 s2 : eqb s1 s2 = false <-> s1 <> s2.
Proof.
  rewrite <- set_eqb_eq. destruct (eqb s1 s2); split; congruence.
Qed.

(** *** add *)

Lemma contains_add_range s : forall a b x,
  contains (add_range a b s) x = ((a <=? x) && (x <? b)) || contains s x.
Proof.
  induction s as [|[c d] rest IH]; intros a b x; simpl.
  - reflexivity.
  - destruct (Z.ltb_spec b c); [reflexivity|].
    destruct (Z.ltb_spec d a).
    + simpl. rewrite IH. unfold in_range; simpl.
      destruct ((a <=? x) && (x <? b)), ((c <=? x) && (x <? d)); reflexivity.
    + rewrite IH. unfold in_range; simpl.
      destruct (contains rest x); [rewrite !orb_true_r; reflexivity|].
      rewrite !orb_false_r. cmp; simpl; try reflexivity; lia.
Qed.

Lemma contains_add a b s x :
  contains (add a b s) x = ((a <=? x) && (x <? b)) || contains s x.
Proof.
  unfold add. destruct (Z.ltb_spec a b).
  - apply contains_add_range.
  - cmp; simpl; try reflexivity; lia.
Qed.

Lemma wf_after_weaken s lo lo' :
  lo' <= lo -> wf_after lo s -> wf_after lo' s.
Proof. destruct s as [|[a b] rest]; simpl; intuition lia. Qed.

Lemma wf_add_range s : forall lo a b,
  lo < a -> a < b -> b < two64 -> wf_after lo s -> wf_after lo (add_range a b s).
Proof.
  induction s as [|[c d] rest IH]; intros lo a b Hlo Hab Hb Hwf; simpl in *.
  - auto.
  - destruct Hwf as (Hc & Hcd & Hd & Hrest).
    destruct (Z.ltb_spec b c); [simpl; repeat split; auto|].
    destruct (Z.ltb_spec d a).
    + simpl. repeat split; auto.
    + apply IH; try lia. apply wf_after_weaken with (lo := d); [lia | exact Hrest].
Qed.

Lemma wf_add lo a b s :
  lo < a -> b < two64 -> wf_after lo s -> wf_after lo (add a b s).
Proof.
  intros. unfold add. destruct (Z.ltb_spec a b); [apply wf_add_range|]; auto.
Qed.

Lemma contains_below s : forall lo x,
  wf_after lo s -> x <= lo -> contains s x = false.
Proof.
  induction s as [|[a b] rest IH]; intros lo x Hwf Hx; simpl in *.
  - reflexivity.
  - destruct Hwf as (Ha & Hab & Hb & Hrest).
    rewrite (IH b x Hrest) by lia.
    unfold in_range; simpl. cmp; simpl; try reflexivity; lia.
Qed.

(** *** remove *)

Lemma contains_without a b x y :
  a <= x < b ->
  contains (without a b x) y = ((a <=? y) && (y <? b)) && negb (y =? x).
Proof.
  intros Hx. unfold without.
  destruct (Z.ltb_spec a x); destruct (Z.ltb_spec (x + 1) b); simpl;
    unfold in_range; simpl; cmp; simpl; try reflexivity; lia.
Qed.

Lemma contains_remove s : forall lo x y,
  wf_after lo s ->
  contains (remove x s) y = contains s y && negb (y =? x).
Proof.
  induction s as [|[a b] rest IH]; intros lo x y Hwf; simpl in *.
  - reflexivity.
  - destruct Hwf as (Ha & Hab & Hb & Hrest).
    destruct (Z.ltb_spec x a).
    + destruct (Z.eqb_spec y x); simpl; [|rewrite andb_true_r; reflexivity].
      subst y. rewrite (contains_below rest b x Hrest) by lia.
      unfold in_range; simpl. cmp; simpl; try reflexivity; lia.
    + destruct (Z.ltb_spec x b).
      * rewrite contains_app, contains_without by lia.
        unfold in_range; simpl.
        destruct (Z.eqb_spec y x); simpl.
        -- subst y. rewrite (contains_below rest b x Hrest) by lia.
           rewrite !andb_false_r. reflexivity.
        -- rewrite !andb_true_r. reflexivity.
      * simpl. rewrite (IH b x y Hrest).
        unfold in_range; simpl. cmp; simpl; try reflexivity; lia.
Qed.

Lemma wf_without a b x rest lo :
  lo < a -> a <= x < b -> b < two64 -> wf_after b rest ->
  wf_after lo (without a b x ++ rest).
Proof.
  intros Hlo Hx Hb Hrest. unfold without.
  destruct (Z.ltb_spec a x); destruct (Z.ltb_spec (x + 1) b); simpl;
    repeat split; try lia; try assumption.
  - apply wf_after_weaken with (lo := b); [lia | assumption].
  - apply wf_after_weaken with (lo := b); [lia | assumption].
Qed.

Lemma wf_remove s : forall lo x,
  wf_after lo s -> wf_after lo (remove x s).
Proof.
  induction s as [|[a b] rest IH]; intros lo x Hwf; simpl in *.
  - exact I.
  - destruct Hwf as (Ha & Hab & Hb & Hrest).
    destruct (Z.ltb_spec x a); [simpl; repeat split; auto|].
    destruct (Z.ltb_spec x b).
    + apply wf_without; auto; lia.
    + simpl. repeat split; auto.
Qed.

(** *** intersection *)

Lemma intersection_nil_r s : intersection s [] = [].
Proof. destruct s as [|[a b] rest]; reflexivity. Qed.

Lemma intersection_cons a b rest1 c d rest2 :
  intersection ((a, b) :: rest1) ((c, d) :: rest2)
  = overlap a b c d
      ++ (if b <=? d then intersection rest1 ((c, d) :: rest2)
          else intersection ((a, b) :: rest1) rest2).
Proof. reflexivity. Qed.

Lemma contains_overlap a b c d x :
  contains (overlap a b c d) x
  = ((a <=? x) && (x <? b)) && ((c <=? x) && (x <? d)).
Proof.
  unfold overlap. destruct (Z.ltb_spec (Z.max a c) (Z.min b d)); simpl;
    unfold in_range; simpl; cmp; simpl; try reflexivity; lia.
Qed.

(** Induction on the two range lists that [intersection] walks. *)
Lemma walk_ind (P : t -> t -> Prop) :
  (forall s2, P [] s2) ->
  (forall s1, P s1 []) ->
  (forall a b rest1 c d rest2,
      (b <= d -> P rest1 ((c, d) :: rest2)) ->
      (d < b -> P ((a, b) :: rest1) rest2) ->
      P ((a, b) :: rest1) ((c, d) :: rest2)) ->
  forall s1 s2, P s1 s2.
Proof.
  intros Hnil1 Hnil2 Hcons s1.
  induction s1 as [|[a b] rest1 IH1]; [exact Hnil1|].
  intros s2. induction s2 as [|[c d] rest2 IH2]; [apply Hnil2|].
  apply Hcons; intros _; [apply IH1 | exact IH2].
Qed.

(** The intersection is never wider than either operand. *)
Lemma intersection_sound s1 s2 x :
  contains (intersection s1 s2) x = true ->
  contains s1 x = true /\ contains s2 x = true.
Proof.
  revert s1 s2. apply (walk_ind (fun s1 s2 =>
    contains (intersection s1 s2) x = true ->
    contains s1 x = true /\ contains s2 x = true)).
  - intros s2 H. discriminate H.
  - intros s1 H. rewrite intersection_nil_r in H. discriminate H.
  - intros a b rest1 c d rest2 IH1 IH2 H.
    rewrite intersection_cons, contains_app, contains_overlap in H.
    rewrite !contains_cons.
    apply orb_true_iff in H. destruct H as [H | H].
    + apply andb_true_iff in H. destruct H as [-> ->]. auto.
    + destruct (Z.leb_spec b d).
      * destruct (IH1 ltac:(lia) H) as [H1 H2]. rewrite H1.
        rewrite contains_cons in H2. rewrite H2, orb_true_r. auto.
      * destruct (IH2 ltac:(lia) H) as [H1 H2]. rewrite H2.
        rewrite contains_cons in H1. rewrite H1, orb_true_r. auto.
Qed.

(** On well-formed sets it keeps every sequence that both operands hold. *)
Lemma intersection_complete s1 s2 x :
  forall la lb, wf_after la s1 -> wf_after lb s2 ->
  contains s1 x = true -> contains s2 x = true ->
  contains (intersection s1 s2) x = true.
Proof.
  revert s1 s2. apply (walk_ind (fun s1 s2 =>
    forall la lb, wf_after la s1 -> wf_after lb s2 ->
    contains s1 x = true -> contains s2 x = true ->
    contains (intersection s1 s2) x = true)).
  - intros s2 la lb _ _ H. discriminate H.
  - intros s1 la lb _ _ _ H. discriminate H.
  - intros a b rest1 c d rest2 IH1 IH2 la lb W1 W2 H1 H2.
    simpl in W1, W2.
    destruct W1 as (Ha & Hab & Hb & W1). destruct W2 as (Hc & Hcd & Hd & W2).
    rewrite intersection_cons, contains_app, contains_overlap.
    rewrite contains_cons in H1, H2.
    destruct (((a <=? x) && (x <? b)) && ((c <=? x) && (x <? d))) eqn:E;
      [reflexivity|]. simpl.
    destruct (Z.leb_spec b d).
    + assert (K : contains rest1 x = true).
      { destruct (contains rest1 x) eqn:E1; [reflexivity|].
        rewrite orb_false_r in H1. rewrite H1 in E. simpl in E.
        rewrite E in H2. simpl in H2.
        destruct (Z.le_gt_cases x d) as [Hx | Hx].
        - rewrite (contains_below rest2 d x W2 Hx) in H2. discriminate.
        - cmp_in H1; simpl in H1; try discriminate; lia. }
      apply (IH1 ltac:(lia) b lb);
        [exact W1 | simpl; auto | exact K | rewrite contains_cons; exact H2].
    + assert (K : contains rest2 x = true).
      { destruct (contains rest2 x) eqn:E2; [reflexivity|].
        rewrite orb_false_r in H2. rewrite H2, andb_true_r in E.
        rewrite E in H1. simpl in H1.
        destruct (Z.le_gt_cases x b) as [Hx | Hx].
        - rewrite (contains_below rest1 b x W1 Hx) in H1. discriminate.
        - cmp_in H2; simpl in H2; try discriminate; lia. }
      apply (IH2 ltac:(lia) la d);
        [simpl; auto | exact W2 | rewrite contains_cons; exact H1 | exact K].
Qed.

Lemma contains_intersection s1 s2 x :
  wf s1 -> wf s2 ->
  contains (intersection s1 s2) x = contains s1 x && contains s2 x.
Proof.
  intros W1 W2.
  destruct (contains (intersection s1 s2) x) eqn:E.
  - destruct (intersection_sound _ _ _ E) as [-> ->]. reflexivity.
  - destruct (contains s1 x) eqn:E1, (contains s2 x) eqn:E2; try reflexivity.
    rewrite (intersection_complete s1 s2 x (-1) (-1) W1 W2 E1 E2) in E.
    discriminate.
Qed.

Lemma wf_intersection_after s1 s2 :
  forall la lb, wf_after la s1 -> wf_after lb s2 ->
  wf_after (Z.max la lb) (intersection s1 s2).
Proof.
  revert s1 s2. apply (walk_ind (fun s1 s2 =>
    forall la lb, wf_after la s1 -> wf_after lb s2 ->
    wf_after (Z.max la lb) (intersection s1 s2))).
  - intros; exact I.
  - intros s1 la lb _ _. rewrite intersection_nil_r. exact I.
  - intros a b rest1 c d rest2 IH1 IH2 la lb W1 W2.
    pose proof W1 as W1'. pose proof W2 as W2'. simpl in W1, W2.
    destruct W1 as (Ha & Hab & Hb & W1). destruct W2 as (Hc & Hcd & Hd & W2).
    rewrite intersection_cons.
    assert (Hrest : wf_after (Z.max (Z.min b d) (Z.max la lb))
              (if b <=? d then intersection rest1 ((c, d) :: rest2)
               else intersection ((a, b) :: rest1) rest2)).
    { destruct (Z.leb_spec b d).
      - apply wf_after_weaken with (lo := Z.max b lb); [lia|].
        apply IH1; auto.
      - apply wf_after_weaken with (lo := Z.max la d); [lia|].
        apply IH2; auto. }
    unfold overlap. destruct (Z.ltb_spec (Z.max a c) (Z.min b d)); simpl.
    + repeat split; try lia.
      eapply wf_after_weaken; [|exact Hrest]. lia.
    + eapply wf_after_weaken; [|exact Hrest]. lia.
Qed.

Lemma wf_intersection s1 s2 : wf s1 -> wf s2 -> wf (intersection s1 s2).
Proof.
  intros W1 W2. apply (wf_intersection_after s1 s2 (-1) (-1) W1 W2).
Qed.

(** *** Canonical form: a well-formed set is determined by its members. *)

Lemma wf_ext s1 : forall s2 lo,
  wf_after lo s1 -> wf_after lo s2 ->
  (forall x, contains s1 x = contains s2 x) -> s1 = s2.
Proof.
  induction s1 as [|[a b] rest1 IH]; intros [|[c d] rest2] lo W1 W2 E.
  - reflexivity.
  - simpl in W2. specialize (E c). rewrite contains_cons in E.
    simpl in E. cmp_in E; simpl in E; try discriminate; lia.
  - simpl in W1. specialize (E a). rewrite contains_cons in E.
    simpl in E. cmp_in E; simpl in E; try discriminate; lia.
  - simpl in W1, W2.
    destruct W1 as (Ha & Hab & Hb & W1). destruct W2 as (Hc & Hcd & Hd & W2).
    assert (Hmem : forall x, (contains rest1 x = true -> b < x)
                          /\ (contains rest2 x = true -> d < x)).
    { intros x; split; intros H.
      - destruct (Z.le_gt_cases x b) as [Hx|Hx]; [|lia].
        rewrite (contains_below rest1 b x W1 Hx) in H. discriminate.
      - destruct (Z.le_gt_cases x d) as [Hx|Hx]; [|lia].
        rewrite (contains_below rest2 d x W2 Hx) in H. discriminate. }
    assert (Hin : forall x, contains ((a, b) :: rest1) x = true -> c <= x).
    { intros x H. rewrite E, contains_cons in H.
      apply orb_true_iff in H. destruct H as [H | H].
      - cmp_in H; simpl in H; try discriminate; lia.
      - apply Hmem in H. lia. }
    assert (Hin' : forall x, contains ((c, d) :: rest2) x = true -> a <= x).
    { intros x H. rewrite <- E, contains_cons in H.
      apply orb_true_iff in H. destruct H as [H | H].
      - cmp_in H; simpl in H; try discriminate; lia.
      - apply Hmem in H. lia. }
    assert (Hac : a = c).
    { assert (c <= a).
      { apply Hin. rewrite contains_cons. cmp; simpl; try reflexivity; lia. }
      assert (a <= c).
      { apply Hin'. rewrite contains_cons. cmp; simpl; try reflexivity; lia. }
      lia. }
    subst c.
    assert (Hbd : b = d).
    { destruct (Z.lt_trichotomy b d) as [Hlt | [Heq | Hgt]]; [|exact Heq|].
      - pose proof (E b) as Eb. rewrite !contains_cons in Eb.
        destruct (contains rest1 b) eqn:E1.
        + apply Hmem in E1. lia.
        + cmp_in Eb; simpl in Eb; try discriminate; lia.
      - pose proof (E d) as Ed. rewrite !contains_cons in Ed.
        destruct (contains rest2 d) eqn:E2.
        + apply Hmem in E2. lia.
        + cmp_in Ed; simpl in Ed; try discriminate; lia. }
    subst d. f_equal.
    apply (IH rest2 b W1 W2). intros x.
    specialize (E x). rewrite !contains_cons in E.
    destruct (contains rest1 x) eqn:E1, (contains rest2 x) eqn:E2;
      try reflexivity.
    + apply Hmem in E1. cmp_in E; simpl in E; try discriminate; lia.
    + apply Hmem in E2. cmp_in E; simpl in E; try discriminate; lia.
Qed.

End SequenceSetFacts.

(** * Facts about remote sequences and machine integers *)

Module RemoteSequenceFacts.
Import RemoteSequence.

Lemma marker_eqb_eq r1 r2 : eqb r1 r2 = true <-> r1 = r2.
Proof.
  destruct r1, r2; simpl; try (split; [discriminate | congruence]); try tauto.
  - rewrite Z.eqb_eq. split; congruence.
  - rewrite String.eqb_eq. split; congruence.
Qed.

Lemma marker_eqb_refl r : eqb r r = true.
Proof. apply marker_eqb_eq. reflexivity. Qed.

Lemma marker_eqb_neq r1 r2 : eqb r1 r2 = false <-> r1 <> r2.
Proof. rewrite <- marker_eqb_eq. destruct (eqb r1 r2); split; congruence. Qed.

Lemma toValue_text r : Value_toJSON (toValue r) = toJSON r.
Proof. destruct r; reflexivity. Qed.

End RemoteSequenceFacts.

Lemma two64_gt_1 : 1 < two64.
Proof. reflexivity. Qed.

Lemma u64_range z : is_u64 (u64 z).
Proof. unfold is_u64, u64, two64. apply Z.mod_pos_bound. lia. Qed.

Lemma u64_small z : is_u64 z -> u64 z = z.
Proof. unfold is_u64, u64. intros H. apply Z.mod_small. exact H. Qed.

Lemma u64_i64 z : u64 (i64 z) = u64 z.
Proof.
  unfold u64, i64. rewrite Zminus_mod_idemp_l. f_equal. lia.
Qed.

(** * Reconciliation: [validateWith] *)

Section ValidateWith.
Variables L P : Checkpoint.

Let completed_match : bool := SequenceSet.eqb (_completed L) (_completed P).
Let remote_differs : bool :=
  RemoteSequence.nonempty (_remote L)
  && negb (RemoteSequence.eqb (_remote L) (_remote P)).

(** The object and the result after the two clauses. *)
Lemma validateWith_run :
  after (validateWith P L)
  = mkCheckpoint
      (if completed_match then _completed L
       else SequenceSet.intersection (_completed L) (_completed P))
      (_lastChecked L)
      (if remote_differs
       then match RemoteSequence.intValue (_remote L),
                  RemoteSequence.intValue (_remote P) with
            | Some mine, Some theirs => if theirs <? mine then _remote P else _remote L
            | _, _ => RemoteSequence.Empty
            end
       else _remote L)
  /\ returned (validateWith P L)
     = completed_match
       && (if remote_differs
           then match RemoteSequence.intValue (_remote L),
                      RemoteSequence.intValue (_remote P) with
                | Some mine, Some theirs => negb (theirs <? mine)
                | _, _ => false
                end
           else true).
Proof.
  subst completed_match remote_differs.
  destruct L as [cL lL rL], P as [cP lP rP].
  unfold validateWith, bind, get, log, set_completed, set_remote, ret,
    after, returned; simpl.
  destruct (SequenceSet.eqb cL cP); simpl;
    destruct rL as [|mine|mine], rP as [|theirs|theirs]; simpl;
    try (split; reflexivity);
    try (destruct (mine =? theirs); simpl; try (split; reflexivity));
    try (destruct (theirs <? mine); simpl; split; reflexivity);
    try (destruct (String.eqb mine theirs); simpl; split; reflexivity).
Qed.

End ValidateWith.

(** C1. When the completed sets of the local checkpoint [L] and of the peer
    [P] differ, [L.validateWith(P)] replaces [L]'s completed set by the
    intersection of the two, a set that holds no sequence missing from either
    of them, and returns false. *)
Theorem validateWith_completed_mismatch (L P : Checkpoint) :
  _completed L <> _completed P ->
  _completed (after (validateWith P L))
  = SequenceSet.intersection (_completed L) (_completed P)
  /\ returned (validateWith P L) = false
  /\ (forall x,
         SequenceSet.contains (_completed (after (validateWith P L))) x = true ->
         SequenceSet.contains (_completed L) x = true
         /\ SequenceSet.contains (_completed P) x = true).
Proof.
  intros Hneq. destruct (validateWith_run L P) as [Hafter Hret].
  apply SequenceSetFacts.set_eqb_neq in Hneq.
  rewrite Hneq in Hafter, Hret.
  rewrite Hafter, Hret. simpl.
  split; [reflexivity | split; [reflexivity|]].
  intros x Hx. apply SequenceSetFacts.intersection_sound. exact Hx.
Qed.

(** C1, the example of the specification: local [{[0,1),[5,10)}] against the
    peer's [{[0,1),[5,8)}] leaves [{[0,1),[5,8)}] and returns false. *)
Lemma validateWith_completed_mismatch_witness :
  _completed local_5_10 <> _completed peer_5_8
  /\ _completed (after (validateWith peer_5_8 local_5_10)) = [(0, 1); (5, 8)]
  /\ returned (validateWith peer_5_8 local_5_10) = false.
Proof.
  assert (Hneq : _completed local_5_10 <> _completed peer_5_8) by discriminate.
  split; [exact Hneq|].
  destruct (validateWith_completed_mismatch local_5_10 peer_5_8 Hneq)
    as (Hc & Hr & _).
  split; [rewrite Hc; reflexivity | exact Hr].
Defined.

(** C2, as the code has it.  A call that returns true has changed neither
    the completed set nor the remote marker; and the call returns false
    exactly when the completed sets of [L] and [P] differ or the remote marker
    was changed.  (It returns false on differing completed sets even when the
    intersection is [L]'s own set.) *)
Theorem validateWith_true_no_mutation (L P : Checkpoint) :
  (returned (validateWith P L) = true ->
   _completed (after (validateWith P L)) = _completed L
   /\ _remote (after (validateWith P L)) = _remote L)
  /\ (returned (validateWith P L) = false <->
      _completed L <> _completed P
      \/ _remote (after (validateWith P L)) <> _remote L).
Proof.
  destruct (validateWith_run L P) as [Hafter Hret].
  rewrite Hafter, Hret. simpl.
  destruct (SequenceSet.eqb (_completed L) (_completed P)) eqn:Ec; simpl.
  - apply SequenceSetFacts.set_eqb_eq in Ec.
    destruct (_remote L) as [|mine|mine] eqn:EL;
      destruct (_remote P) as [|theirs|theirs] eqn:EP; simpl;
      try (destruct (Z.eqb_spec mine theirs) as [E1|E1]; simpl);
      try (destruct (Z.ltb_spec theirs mine) as [E2|E2]; simpl);
      try (destruct (String.eqb_spec mine theirs) as [E3|E3]; simpl);
      intuition (try congruence; try discriminate).
  - apply SequenceSetFacts.set_eqb_neq in Ec.
    split; [discriminate|]. split; auto.
Qed.

(** C2, the converse fails: against a peer whose completed set is wider the
    call returns false and leaves the local checkpoint as it was. *)
Lemma validateWith_false_without_mutation :
  returned (validateWith (mkCheckpoint [(0, 5)] 4 RemoteSequence.Empty) new_checkpoint)
  = false
  /\ after (validateWith (mkCheckpoint [(0, 5)] 4 RemoteSequence.Empty) new_checkpoint)
     = new_checkpoint.
Proof. split; reflexivity. Qed.

(** C5. The remote-marker clause of [L.validateWith(P)].  When [L]'s marker
    is empty or equal to [P]'s, the clause does nothing: the marker stays and
    the result is that of the completed-set clause.  When both markers are
    integers: if [L]'s is greater it becomes [P]'s and the call returns false;
    otherwise it stays and the result is that of the completed-set clause.
    When [L]'s marker is not empty, differs from [P]'s and one of them is not
    an integer, it becomes empty and the call returns false. *)
Theorem validateWith_remote_clause (L P : Checkpoint) :
  ((_remote L = RemoteSequence.Empty \/ _remote L = _remote P) ->
   _remote (after (validateWith P L)) = _remote L
   /\ returned (validateWith P L) = SequenceSet.eqb (_completed L) (_completed P))
  /\ (forall mine theirs,
         _remote L = RemoteSequence.Integer mine ->
         _remote P = RemoteSequence.Integer theirs ->
         (theirs < mine ->
          _remote (after (validateWith P L)) = _remote P
          /\ returned (validateWith P L) = false)
         /\ (mine <= theirs ->
             _remote (after (validateWith P L)) = _remote L
             /\ returned (validateWith P L)
                = SequenceSet.eqb (_completed L) (_completed P)))
  /\ (_remote L <> RemoteSequence.Empty ->
      _remote L <> _remote P ->
      RemoteSequence.isInt (_remote L) = false
      \/ RemoteSequence.isInt (_remote P) = false ->
      _remote (after (validateWith P L)) = RemoteSequence.Empty
      /\ returned (validateWith P L) = false).
Proof.
  destruct (validateWith_run L P) as [Hafter Hret].
  rewrite Hafter, Hret. simpl.
  split; [|split].
  - intros [HE | HE].
    + rewrite HE. simpl. rewrite andb_true_r. auto.
    + rewrite HE, RemoteSequenceFacts.marker_eqb_refl. simpl.
      rewrite andb_false_r, andb_true_r. auto.
  - intros mine theirs HL HP. rewrite HL, HP. simpl. split; intros Hcmp.
    + destruct (Z.eqb_spec mine theirs); [lia|]. simpl.
      destruct (Z.ltb_spec theirs mine); [|lia]. simpl.
      rewrite andb_false_r. auto.
    + destruct (Z.eqb_spec mine theirs); simpl.
      * rewrite andb_true_r. auto.
      * destruct (Z.ltb_spec theirs mine); [lia|]. simpl.
        rewrite andb_true_r. auto.
  - intros Hne Hdiff Hkind.
    apply RemoteSequenceFacts.marker_eqb_neq in Hdiff. rewrite Hdiff.
    destruct (_remote L) as [|mine|mine]; [congruence| |];
      destruct (_remote P) as [|theirs|theirs]; simpl in *;
      try (rewrite andb_false_r; auto);
      destruct Hkind; discriminate.
Qed.

(** C10. [validateWith] never touches [_lastChecked]. *)
Theorem validateWith_lastChecked (L P : Checkpoint) :
  _lastChecked (after (validateWith P L)) = _lastChecked L.
Proof.
  destruct (validateWith_run L P) as [Hafter _]. rewrite Hafter. reflexivity.
Qed.

Lemma intersection_again (s1 s2 : SequenceSet.t) :
  SequenceSet.wf s1 -> SequenceSet.wf s2 ->
  SequenceSet.intersection (SequenceSet.intersection s1 s2) s2
  = SequenceSet.intersection s1 s2.
Proof.
  intros W1 W2.
  pose proof (SequenceSetFacts.wf_intersection s1 s2 W1 W2) as W12.
  apply (SequenceSetFacts.wf_ext _ _ (-1)).
  - apply SequenceSetFacts.wf_intersection; assumption.
  - exact W12.
  - intros x. rewrite !SequenceSetFacts.contains_intersection by assumption.
    destruct (SequenceSet.contains s1 x), (SequenceSet.contains s2 x); reflexivity.
Qed.

(** The remote-marker clause, run a second time against the same peer, finds
    nothing to change. *)
Lemma remote_clause_settled (rL rP : RemoteSequence.t) :
  let r1 :=
    if RemoteSequence.nonempty rL && negb (RemoteSequence.eqb rL rP)
    then match RemoteSequence.intValue rL, RemoteSequence.intValue rP with
         | Some mine, Some theirs => if theirs <? mine then rP else rL
         | _, _ => RemoteSequence.Empty
         end
    else rL in
  (if RemoteSequence.nonempty r1 && negb (RemoteSequence.eqb r1 rP)
   then match RemoteSequence.intValue r1, RemoteSequence.intValue rP with
        | Some mine, Some theirs => if theirs <? mine then rP else r1
        | _, _ => RemoteSequence.Empty
        end
   else r1) = r1
  /\ (if RemoteSequence.nonempty r1 && negb (RemoteSequence.eqb r1 rP)
      then match RemoteSequence.intValue r1, RemoteSequence.intValue rP with
           | Some mine, Some theirs => negb (theirs <? mine)
           | _, _ => false
           end
      else true) = true.
Proof.
  destruct rL as [|mine|mine], rP as [|theirs|theirs]; simpl; auto.
  - destruct (Z.eqb_spec mine theirs) as [E|E]; simpl.
    + subst. rewrite Z.eqb_refl. simpl. auto.
    + destruct (Z.ltb_spec theirs mine) as [E'|E']; simpl.
      * rewrite Z.eqb_refl. simpl. auto.
      * destruct (Z.eqb_spec mine theirs); [contradiction|]. simpl.
        destruct (Z.ltb_spec theirs mine); [lia|]. auto.
  - destruct (String.eqb_spec mine theirs) as [E|E]; simpl; auto.
    subst. rewrite String.eqb_refl. simpl. auto.
Qed.

(** C6, as the code has it.  After a call that returned true a repeated call
    returns true and the checkpoint is still the original one.  After any
    first call, a second call against the same peer returns true exactly when
    the completed set the first call left equals the peer's; the remote
    marker never makes it false.  On sets in canonical form the second call
    changes nothing. *)
Theorem validateWith_twice (L P : Checkpoint) :
  (returned (validateWith P L) = true ->
   returned (validateWith P (after (validateWith P L))) = true
   /\ after (validateWith P (after (validateWith P L))) = L)
  /\ (returned (validateWith P (after (validateWith P L))) = true <->
      _completed (after (validateWith P L)) = _completed P)
  /\ (SequenceSet.wf (_completed L) -> SequenceSet.wf (_completed P) ->
      after (validateWith P (after (validateWith P L))) = after (validateWith P L)).
Proof.
  destruct (validateWith_run L P) as [Hafter Hret].
  destruct (validateWith_run (after (validateWith P L)) P) as [Hafter2 Hret2].
  destruct (remote_clause_settled (_remote L) (_remote P)) as [Hr1 Hr2].
  cbv zeta in Hr1, Hr2.
  rewrite Hafter2, Hret2. rewrite Hafter. simpl.
  rewrite Hr1, Hr2, andb_true_r. rewrite Hret. clear Hafter Hret Hafter2 Hret2.
  split; [|split].
  - intros Htrue. apply andb_true_iff in Htrue. destruct Htrue as [Ec Hrem].
    rewrite Ec. rewrite Ec.
    assert (Hsame :
      (if RemoteSequence.nonempty (_remote L)
          && negb (RemoteSequence.eqb (_remote L) (_remote P))
       then match RemoteSequence.intValue (_remote L),
                  RemoteSequence.intValue (_remote P) with
            | Some mine, Some theirs => if theirs <? mine then _remote P else _remote L
            | _, _ => RemoteSequence.Empty
            end
       else _remote L) = _remote L).
    { destruct (RemoteSequence.nonempty (_remote L)
                && negb (RemoteSequence.eqb (_remote L) (_remote P)));
        [|reflexivity].
      destruct (RemoteSequence.intValue (_remote L)) as [mine|];
        [|discriminate Hrem].
      destruct (RemoteSequence.intValue (_remote P)) as [theirs|];
        [|discriminate Hrem].
      destruct (theirs <? mine); [discriminate Hrem | reflexivity]. }
    rewrite Hsame. split; [reflexivity|]. destruct L; reflexivity.
  - apply SequenceSetFacts.set_eqb_eq.
  - intros W1 W2.
    destruct (SequenceSet.eqb (_completed L) (_completed P)) eqn:Ec.
    + rewrite Ec. reflexivity.
    + destruct (SequenceSet.eqb
                  (SequenceSet.intersection (_completed L) (_completed P))
                  (_completed P)); [reflexivity|].
      rewrite intersection_again by assumption. reflexivity.
Qed.

(** C6, a second call that still returns false: the first call narrows the
    completed set [{[0,5)}] to [{[0,1),[3,5)}], which is not the peer's
    [{[0,1),[3,8)}]. *)
Lemma validateWith_second_call_false :
  _completed
    (after (validateWith (mkCheckpoint [(0, 1); (3, 8)] 7 RemoteSequence.Empty)
              (mkCheckpoint [(0, 5)] 4 RemoteSequence.Empty)))
  = [(0, 1); (3, 5)]
  /\ returned
       (validateWith (mkCheckpoint [(0, 1); (3, 8)] 7 RemoteSequence.Empty)
          (after (validateWith (mkCheckpoint [(0, 1); (3, 8)] 7 RemoteSequence.Empty)
                    (mkCheckpoint [(0, 5)] 4 RemoteSequence.Empty))))
     = false.
Proof. split; reflexivity. Qed.

(** * Reset, reading and the sentinel invariant *)

Lemma resetLocal_run (c : Checkpoint) :
  resetLocal c = (tt, mkCheckpoint [(0, 1)] 0 (_remote c), []).
Proof. reflexivity. Qed.

Lemma readDict_run (root : option Dict) (c : Checkpoint) :
  readDict root c
  = (tt,
     match root with
     | None => mkCheckpoint [(0, 1)] 0 RemoteSequence.Empty
     | Some d =>
         mkCheckpoint
           (match asArray (dict_get d "localCompleted") with
            | Some pending => read_ranges pending [(0, 1)]
            | None =>
                SequenceSet.add 0 (u64 (u64 (asInt (dict_get d "local")) + 1)) [(0, 1)]
            end)
           0
           (RemoteSequence.of_value (dict_get d "remote"))
     end,
     []).
Proof.
  destruct root as [d|]; [|reflexivity].
  unfold readDict, bind. rewrite resetLocal_run. simpl.
  destruct (asArray (dict_get d "localCompleted")); reflexivity.
Qed.

Lemma readJSON_run (fromJSON : string -> option Value) (json : option string)
      (c : Checkpoint) :
  after (readJSON fromJSON json c)
  = after (readDict (asDict (match json with
                             | Some text => fromJSON text
                             | None => None
                             end)) c).
Proof.
  unfold readJSON, bind.
  destruct json as [text|]; simpl.
  - destruct (fromJSON text) as [root|]; simpl; rewrite !readDict_run; reflexivity.
  - rewrite !readDict_run. reflexivity.
Qed.

Lemma addPendingSequence_run (s : Z) (c : Checkpoint) :
  addPendingSequence s c
  = (tt,
     mkCheckpoint (SequenceSet.remove s (_completed c))
       (Z.max (_lastChecked c) s) (_remote c),
     []).
Proof. reflexivity. Qed.

Lemma setRemoteMinSequence_completed (r : RemoteSequence.t) (c : Checkpoint) :
  _completed (after (setRemoteMinSequence r c)) = _completed c.
Proof.
  unfold setRemoteMinSequence, bind, get, after. simpl.
  destruct (RemoteSequence.eqb r (_remote c)); reflexivity.
Qed.

(** Whatever [add] preserves, the loop of [readDict] preserves. *)
Lemma read_ranges_preserves (Q : SequenceSet.t -> Prop) :
  (forall a b s, is_u64 a -> is_u64 b -> Q s -> Q (SequenceSet.add a b s)) ->
  forall pending s, Q s -> Q (read_ranges pending s).
Proof.
  intros Hadd.
  assert (H : forall pending,
             (forall s, Q s -> Q (read_ranges pending s))
             /\ (forall v s, Q s -> Q (read_ranges (v :: pending) s))).
  { induction pending as [|v2 rest [IH1 IH2]]; split.
    - intros s Hs. exact Hs.
    - intros v s Hs. simpl. apply Hadd; auto; apply u64_range.
    - apply IH2.
    - intros v s Hs. simpl. apply IH1. apply Hadd; auto; apply u64_range. }
  intros pending. apply H.
Qed.

Lemma has_sentinel_add (a b : Z) (s : SequenceSet.t) :
  is_u64 a -> is_u64 b ->
  SequenceSet.wf s /\ SequenceSet.contains s 0 = true ->
  SequenceSet.wf (SequenceSet.add a b s)
  /\ SequenceSet.contains (SequenceSet.add a b s) 0 = true.
Proof.
  intros Ha Hb [W H0]. unfold is_u64 in *. split.
  - apply SequenceSetFacts.wf_add; [lia | lia | exact W].
  - rewrite SequenceSetFacts.contains_add, H0. apply orb_true_r.
Qed.

Lemma has_sentinel_first (c : Checkpoint) :
  has_sentinel c ->
  exists last rest,
    _completed c = (0, last) :: rest
    /\ 0 < last < two64 /\ SequenceSet.wf_after last rest.
Proof.
  intros [W H0]. destruct (_completed c) as [|[a b] rest]; [discriminate H0|].
  simpl in W. destruct W as (Ha & Hab & Hb & Hrest).
  rewrite SequenceSetFacts.contains_cons in H0.
  rewrite (SequenceSetFacts.contains_below rest b 0 Hrest) in H0 by lia.
  rewrite orb_false_r in H0.
  assert (a = 0) by (cmp_in H0; simpl in H0; try discriminate; lia).
  subst a. exists b, rest. repeat split; auto.
Qed.

Lemma has_sentinel_addPendingSequence (s : Z) (c : Checkpoint) :
  has_sentinel c -> s <> 0 -> has_sentinel (after (addPendingSequence s c)).
Proof.
  intros [W H1] Hs. rewrite addPendingSequence_run.
  unfold after, has_sentinel; simpl. split.
  - apply SequenceSetFacts.wf_remove. exact W.
  - rewrite (SequenceSetFacts.contains_remove _ (-1)) by exact W.
    rewrite H1. destruct (Z.eqb_spec 0 s); [congruence | reflexivity].
Qed.

(** X18. What the code does keep of the sentinel invariant.  That the
    completed set is in canonical form and holds the sentinel sequence 0 (and
    so is not empty) is established by [resetLocal] and by reading a
    document, and is preserved by [addPendingSequence] of any sequence other
    than 0, by [validateWith] against a peer that also satisfies it, and by
    [setRemoteMinSequence]; under it the assertion of [localMinSequence]
    holds. *)
Theorem sentinel_invariant_preserved :
  (forall c, has_sentinel (after (resetLocal c)))
  /\ (forall root c, has_sentinel (after (readDict root c)))
  /\ (forall fromJSON json c, has_sentinel (after (readJSON fromJSON json c)))
  /\ (forall s c, has_sentinel c -> s <> 0 ->
                  has_sentinel (after (addPendingSequence s c)))
  /\ (forall P c, has_sentinel c -> has_sentinel P ->
                  has_sentinel (after (validateWith P c)))
  /\ (forall r c, has_sentinel c -> has_sentinel (after (setRemoteMinSequence r c)))
  /\ (forall c, has_sentinel c ->
                SequenceSet.empty (_completed c) = false
                /\ exists n, localMinSequence c = Some n).
Proof.
  assert (Hfresh : SequenceSet.wf [(0, 1)]
                   /\ SequenceSet.contains [(0, 1)] 0 = true).
  { split; [|reflexivity].
    unfold SequenceSet.wf; simpl. pose proof two64_gt_1. lia. }
  assert (Hread : forall root c, has_sentinel (after (readDict root c))).
  { intros root c. rewrite readDict_run. unfold after, has_sentinel; simpl.
    destruct root as [d|]; simpl; [|exact Hfresh].
    destruct (asArray (dict_get d "localCompleted")) as [pending|].
    - apply (read_ranges_preserves
               (fun s => SequenceSet.wf s /\ SequenceSet.contains s 0 = true));
        [|exact Hfresh].
      intros a b s Ha Hb Hs. apply has_sentinel_add; assumption.
    - apply has_sentinel_add;
        [pose proof two64_gt_1; unfold is_u64; lia | apply u64_range | exact Hfresh]. }
  split; [intros c; exact Hfresh|].
  split; [exact Hread|].
  split; [intros fromJSON json c; rewrite readJSON_run; apply Hread|].
  split; [|split; [|split]].
  - intros s c Hc Hs. apply has_sentinel_addPendingSequence; assumption.
  - intros P c [Wc Hc] [WP HP].
    destruct (validateWith_run c P) as [Hafter _]. rewrite Hafter.
    unfold has_sentinel; simpl.
    destruct (SequenceSet.eqb (_completed c) (_completed P)); [auto|]. split.
    + apply SequenceSetFacts.wf_intersection; assumption.
    + rewrite SequenceSetFacts.contains_intersection by assumption.
      rewrite Hc, HP. reflexivity.
  - intros r c H. unfold has_sentinel.
    rewrite setRemoteMinSequence_completed. exact H.
  - intros c H. destruct (has_sentinel_first c H) as (last & rest & E & _).
    unfold localMinSequence. rewrite E. simpl. eauto.
Qed.

(** C3, the code at the failing input.  [addPendingSequence] does not guard
    the sentinel: on a new checkpoint, whose completed set is [{[0,1)}],
    [addPendingSequence(0)] leaves the completed set empty, and
    [localMinSequence] then fails its own [assert(!_completed.empty())].  The
    invariant the claim states, and the assertion relies on, is not kept. *)
Lemma addPendingSequence_sentinel_empties :
  _completed new_checkpoint = [(0, 1)]
  /\ _completed (after (addPendingSequence 0 new_checkpoint)) = []
  /\ localMinSequence (after (addPendingSequence 0 new_checkpoint)) = None.
Proof. repeat split. Qed.

(** * Reading a document *)

Lemma asUnsigned_VInt (z : Z) : is_u64 z -> asUnsigned (Some (VInt z)) = z.
Proof.
  intros H. unfold asUnsigned, asInt. rewrite u64_i64. apply u64_small. exact H.
Qed.

Lemma read_ranges_flatten (pairs : list (Z * Z)) : forall s,
  Forall (fun p => is_u64 (fst p) /\ is_u64 (snd p)) pairs ->
  read_ranges (flatten_pairs pairs) s = add_pairs pairs s.
Proof.
  induction pairs as [|[first len] rest IH]; intros s Hall.
  - reflexivity.
  - inversion Hall as [|p ps [Hf Hl] Hrest]; subst. simpl in Hf, Hl.
    change (flatten_pairs ((first, len) :: rest))
      with (VInt first :: VInt len :: flatten_pairs rest).
    cbn [read_ranges add_pairs fold_left fst snd].
    rewrite !asUnsigned_VInt by assumption.
    apply IH. exact Hrest.
Qed.

(** C7. Reading a dictionary whose [localCompleted] is an array of
    (first, length) pairs adds the range [[first, first+length)] for each
    pair, in order, to the reset set; when there is no such array, the
    integer [n] under [local] adds the range [[0, n+1)].  The two documents
    of the specification give [{[0,1),[5,8)}], and [{[0,5)}] with
    [localMinSequence() = 4]. *)
Theorem readDict_completed :
  (forall root pairs c,
      Forall (fun p => is_u64 (fst p) /\ is_u64 (snd p)) pairs ->
      dict_get root "localCompleted" = Some (VArray (flatten_pairs pairs)) ->
      _completed (after (readDict (Some root) c)) = add_pairs pairs [(0, 1)])
  /\ (forall root n c,
         asArray (dict_get root "localCompleted") = None ->
         dict_get root "local" = Some (VInt n) ->
         _completed (after (readDict (Some root) c))
         = SequenceSet.add 0 (u64 (n + 1)) [(0, 1)])
  /\ (forall c,
         _completed
           (after (readDict
                     (Some [("localCompleted"%string,
                             VArray [VInt 0; VInt 1; VInt 5; VInt 3])]) c))
         = [(0, 1); (5, 8)])
  /\ (forall c,
         _completed (after (readDict (Some [("local"%string, VInt 4)]) c)) = [(0, 5)]
         /\ localMinSequence (after (readDict (Some [("local"%string, VInt 4)]) c))
            = Some 4).
Proof.
  split; [|split; [|split]].
  - intros root pairs c Hall Hget. rewrite readDict_run. unfold after; simpl.
    rewrite Hget. simpl. apply read_ranges_flatten. exact Hall.
  - intros root n c Harr Hget. rewrite readDict_run. unfold after; simpl.
    rewrite Harr, Hget. unfold asInt. rewrite u64_i64.
    unfold u64. rewrite Zplus_mod_idemp_l. reflexivity.
  - intros c. rewrite readDict_run. reflexivity.
  - intros c. rewrite readDict_run. split; reflexivity.
Qed.

(** C8. When the text does not parse, [readJSON] logs the failure and leaves
    a brand-new checkpoint: completed set [{[0,1)}], [lastChecked] 0, no
    remote marker.  It raises nothing. *)
Theorem readJSON_unparseable (fromJSON : string -> option Value)
        (text : string) (c : Checkpoint) :
  fromJSON text = None ->
  after (readJSON fromJSON (Some text) c)
  = mkCheckpoint [(0, 1)] 0 RemoteSequence.Empty
  /\ after (readJSON fromJSON (Some text) c) = new_checkpoint
  /\ logged (readJSON fromJSON (Some text) c)
     = [LogError ("Unparseable checkpoint: " ++ text)].
Proof.
  intros Hfail. split; [|split].
  - rewrite readJSON_run, Hfail, readDict_run. reflexivity.
  - rewrite readJSON_run, Hfail, readDict_run. reflexivity.
  - unfold readJSON, bind, logged. rewrite Hfail.
    unfold log, ret. cbn beta iota. rewrite readDict_run. reflexivity.
Qed.

Lemma readJSON_unparseable_witness :
  parser_of [VDict []] "{local:" = None
  /\ after (readJSON (parser_of [VDict []]) (Some "{local:"%string) local_5_10)
     = mkCheckpoint [(0, 1)] 0 RemoteSequence.Empty.
Proof.
  split; [reflexivity|].
  apply (readJSON_unparseable (parser_of [VDict []]) "{local:" local_5_10).
  reflexivity.
Defined.

(** * The pending count *)

(** The loop over the ranges that follow a range [[a, b)]: without
    wrap-around it adds the gaps between consecutive ranges and ends at the
    end of the last range. *)
Lemma count_gaps_between (rest : SequenceSet.t) : forall a b count,
  SequenceSet.wf_after (-1) ((a, b) :: rest) ->
  0 <= count <= a ->
  count_gaps rest count b
  = (count + gaps_between ((a, b) :: rest), last_end ((a, b) :: rest))
  /\ 0 <= count + gaps_between ((a, b) :: rest) < last_end ((a, b) :: rest)
  /\ last_end ((a, b) :: rest) < two64.
Proof.
  induction rest as [|[c d] rest' IH]; intros a b count W Hc.
  - simpl in W. unfold last_end. simpl. repeat split; try lia. f_equal. lia.
  - pose proof W as (Ha & Hab & Hb & Hc1 & Hcd & Hd & Hrest).
    assert (W' : SequenceSet.wf_after (-1) ((c, d) :: rest')).
    { simpl. repeat split; auto. lia. }
    cbn [count_gaps].
    assert (E1 : u64 (c - b) = c - b) by (apply u64_small; unfold is_u64; lia).
    assert (E2 : u64 (count + (c - b)) = count + (c - b))
      by (apply u64_small; unfold is_u64; lia).
    rewrite E1, E2.
    destruct (IH c d (count + (c - b)) W' ltac:(lia)) as (Hrun & Hbound & Hend).
    change (gaps_between ((a, b) :: (c, d) :: rest'))
      with ((c - b) + gaps_between ((c, d) :: rest')).
    change (last_end ((a, b) :: (c, d) :: rest'))
      with (last_end ((c, d) :: rest')).
    rewrite Hrun. repeat split; try lia. f_equal. lia.
Qed.

(** C9, as the code has it.  For a checkpoint whose completed set is in
    canonical form and starts at the sentinel sequence 0,
    [pendingSequenceCount()] is the sum of the gaps between consecutive
    ranges plus the tail from the end of the last range up to [lastChecked]
    when [lastChecked] lies beyond it. *)
Theorem pendingSequenceCount_gaps (c : Checkpoint) :
  has_sentinel c ->
  is_u64 (_lastChecked c) ->
  pendingSequenceCount c = pending_spec c.
Proof.
  intros Hs Hlc.
  destruct (has_sentinel_first c Hs) as (b & rest & E & Hb & Hrest).
  destruct Hs as [W _]. unfold SequenceSet.wf in W. rewrite E in W.
  unfold pendingSequenceCount, pending_spec, tail_pending. rewrite E.
  cbn [count_gaps].
  replace (u64 (0 + u64 (0 - 0))) with 0 by reflexivity.
  destruct (count_gaps_between rest 0 b 0 W ltac:(lia)) as (Hrun & Hbound & Hend).
  rewrite Hrun. simpl fst in *.
  set (G := gaps_between ((0, b) :: rest)) in *.
  set (E' := last_end ((0, b) :: rest)) in *.
  unfold is_u64 in Hlc.
  assert (E1 : u64 (E' - 1) = E' - 1) by (apply u64_small; unfold is_u64; lia).
  rewrite E1.
  destruct (Z.ltb_spec (E' - 1) (_lastChecked c)); [|lia].
  assert (E2 : u64 (_lastChecked c - (E' - 1)) = _lastChecked c - (E' - 1))
    by (apply u64_small; unfold is_u64; lia).
  rewrite E2. apply u64_small. unfold is_u64. lia.
Qed.

(** C9, the example of the specification: completed [{[0,1),[5,8)}] and
    [lastChecked = 10] give (5-1) + (10-7) = 7. *)
Lemma pendingSequenceCount_gaps_witness :
  pendingSequenceCount (mkCheckpoint [(0, 1); (5, 8)] 10 RemoteSequence.Empty) = 7.
Proof.
  rewrite (pendingSequenceCount_gaps
             (mkCheckpoint [(0, 1); (5, 8)] 10 RemoteSequence.Empty)).
  - reflexivity.
  - split; [|reflexivity].
    unfold SequenceSet.wf; simpl. pose proof two64_gt_1.
    assert (8 < two64) by reflexivity. lia.
  - split; [discriminate | reflexivity].
Defined.

(** C9, a completed set that is not empty and does not start at 0: the code
    also counts the sequences in front of the first range, 5 + 3 = 8, where
    the gaps between consecutive ranges and the tail give 3. *)
Lemma pendingSequenceCount_leading_gap :
  pendingSequenceCount (mkCheckpoint [(5, 8)] 10 RemoteSequence.Empty) = 8
  /\ pending_spec (mkCheckpoint [(5, 8)] 10 RemoteSequence.Empty) = 3.
Proof. split; reflexivity. Qed.

(** * Writing a checkpoint and reading it back *)

Lemma wf_after_app_last (p : SequenceSet.t) : forall lo a b rest,
  SequenceSet.wf_after lo (p ++ (a, b) :: rest) ->
  lo < a /\ a < b /\ b < two64 /\ SequenceSet.wf_after lo (p ++ [(a, b)]).
Proof.
  induction p as [|[c d] p' IH]; intros lo a b rest W; simpl in *.
  - intuition lia.
  - destruct W as (Hc & Hcd & Hd & W).
    destruct (IH d a b rest W) as (Hda & Hab & Hb & W').
    repeat split; auto; lia.
Qed.

(** Adding a range that lies beyond every range of the set appends it. *)
Lemma add_range_at_end (p : SequenceSet.t) : forall lo a b,
  SequenceSet.wf_after lo (p ++ [(a, b)]) ->
  SequenceSet.add_range a b p = p ++ [(a, b)].
Proof.
  induction p as [|[c d] p' IH]; intros lo a b W; simpl in *.
  - reflexivity.
  - destruct W as (Hc & Hcd & Hd & W).
    destruct (wf_after_app_last p' d a b [] W) as (Hda & Hab & _).
    destruct (Z.ltb_spec b c); [lia|].
    destruct (Z.ltb_spec d a); [|lia].
    f_equal. apply (IH d). exact W.
Qed.

(** The ranges [toJSON] writes are read back as they were. *)
Lemma read_write_ranges (r : SequenceSet.t) : forall p,
  SequenceSet.wf_after (-1) (p ++ r) ->
  read_ranges (write_ranges r) p = p ++ r.
Proof.
  induction r as [|[a b] r' IH]; intros p W.
  - simpl. rewrite app_nil_r. reflexivity.
  - destruct (wf_after_app_last p (-1) a b r' W) as (Ha & Hab & Hb & Wp).
    cbn [write_ranges read_ranges].
    assert (Ua : u64 a = a) by (apply u64_small; unfold is_u64; lia).
    assert (Ul : u64 (b - a) = b - a) by (apply u64_small; unfold is_u64; lia).
    rewrite Ua, Ul.
    rewrite !asUnsigned_VInt by (unfold is_u64; lia).
    replace (a + (b - a)) with b by lia.
    assert (Ub : u64 b = b) by (apply u64_small; unfold is_u64; lia).
    rewrite Ub. unfold SequenceSet.add.
    destruct (Z.ltb_spec a b); [|lia].
    rewrite (add_range_at_end p (-1) a b Wp).
    rewrite IH; rewrite <- app_assoc; [reflexivity | exact W].
Qed.

Lemma apply_op_has_sentinel (o : Op) (c : Checkpoint) :
  op_u64 o -> op_keeps_sentinel o -> has_sentinel c ->
  has_sentinel (apply_op o c) /\ _remote (apply_op o c) = _remote c.
Proof.
  intros Hu Hk Hs.
  destruct o as [first last|s|s]; simpl in *.
  - split; [|reflexivity]. unfold has_sentinel; simpl.
    apply has_sentinel_add; [apply Hu | apply Hu | exact Hs].
  - split; [|reflexivity].
    apply (has_sentinel_addPendingSequence s c Hs) in Hk.
    rewrite addPendingSequence_run in Hk. exact Hk.
  - split; [apply has_sentinel_addPendingSequence; assumption | reflexivity].
Qed.

Lemma run_has_sentinel (ops : list Op) : forall c,
  Forall op_u64 ops -> Forall op_keeps_sentinel ops -> has_sentinel c ->
  has_sentinel (run ops c) /\ _remote (run ops c) = _remote c.
Proof.
  induction ops as [|o rest IH]; intros c Hu Hk Hs; simpl.
  - auto.
  - inversion Hu; inversion Hk; subst.
    destruct (apply_op_has_sentinel o c) as [Hs' Hr']; auto.
    destruct (IH (apply_op o c)) as [Hs'' Hr'']; auto.
    split; [exact Hs'' | congruence].
Qed.

(** What a reader finds in the dictionary [toJSON] writes. *)
Lemma toDict_lookup (gWriteTimestamps : bool) (now : Z) (c : Checkpoint)
      (minSeq : Z) (doc : Dict) :
  localMinSequence c = Some minSeq ->
  toDict gWriteTimestamps now c = Some doc ->
  dict_get doc "remote"
  = (if RemoteSequence.nonempty (_remote c)
     then Some (RemoteSequence.toValue (_remote c)) else None)
  /\ dict_get doc "localCompleted"
     = (if 1 <? SequenceSet.rangesCount (_completed c)
        then Some (VArray (write_ranges (_completed c))) else None)
  /\ dict_get doc "local"
     = (if 0 <? minSeq then Some (VInt (u64 minSeq)) else None).
Proof.
  intros Hmin Hdoc. unfold toDict in Hdoc. rewrite Hmin in Hdoc.
  injection Hdoc as <-.
  destruct gWriteTimestamps, (0 <? minSeq),
    (1 <? SequenceSet.rangesCount (_completed c)),
    (RemoteSequence.nonempty (_remote c)); repeat split.
Qed.

Lemma of_value_toValue (r : RemoteSequence.t) :
  RemoteSequence.wf r ->
  RemoteSequence.of_value
    (if RemoteSequence.nonempty r then Some (RemoteSequence.toValue r) else None)
  = r.
Proof.
  destruct r as [|n|bytes]; intros W; try reflexivity.
  cbn [RemoteSequence.nonempty RemoteSequence.toValue RemoteSequence.of_value
         isInteger].
  rewrite asUnsigned_VInt by exact W. reflexivity.
Qed.

(** The completed set read back from the dictionary of a checkpoint that
    holds the sentinel. *)
Lemma read_back_completed (last : Z) (rest : SequenceSet.t) :
  0 < last < two64 -> SequenceSet.wf_after last rest ->
  match asArray (if 1 <? SequenceSet.rangesCount ((0, last) :: rest)
                 then Some (VArray (write_ranges ((0, last) :: rest))) else None) with
  | Some pending => read_ranges pending [(0, 1)]
  | None =>
      SequenceSet.add 0
        (u64 (u64 (asInt (if 0 <? u64 (last - 1)
                          then Some (VInt (u64 (u64 (last - 1)))) else None)) + 1))
        [(0, 1)]
  end = (0, last) :: rest.
Proof.
  intros Hlast Hrest.
  assert (U1 : u64 (last - 1) = last - 1) by (apply u64_small; unfold is_u64; lia).
  assert (U0 : u64 last = last) by (apply u64_small; unfold is_u64; lia).
  assert (Hfirst : SequenceSet.add 0 last [(0, 1)] = [(0, last)]).
  { unfold SequenceSet.add. destruct (Z.ltb_spec 0 last); [|lia]. simpl.
    destruct (Z.ltb_spec last 0); [lia|].
    f_equal. f_equal. lia. }
  unfold SequenceSet.rangesCount.
  destruct rest as [|[c d] rest'].
  - simpl List.length. simpl asArray. rewrite U1, U1.
    destruct (Z.ltb_spec 0 (last - 1)).
    + unfold asInt. rewrite u64_i64, U1.
      replace (last - 1 + 1) with last by lia. rewrite U0. exact Hfirst.
    + assert (last = 1) by lia. subst last. reflexivity.
  - assert (Hlen : 1 < Z.of_nat (List.length ((0, last) :: (c, d) :: rest')))
      by (simpl List.length; lia).
    remember ((c, d) :: rest') as r eqn:Er.
    destruct (Z.ltb_spec 1 (Z.of_nat (List.length ((0, last) :: r)))); [|lia].
    cbn [asArray write_ranges read_ranges].
    replace (last - 0) with last by lia.
    rewrite U0. change (u64 0) with 0.
    rewrite !asUnsigned_VInt by (pose proof two64_gt_1; unfold is_u64; lia).
    replace (0 + last) with last by lia. rewrite U0, Hfirst.
    apply (read_write_ranges r [(0, last)]).
    simpl. intuition lia.
Qed.

(** C4, as the code has it.  Take any checkpoint reached from a reset one by
    [add], [remove] and [addPendingSequence] calls on sequence numbers, none
    of which removes the sentinel sequence 0.  [toJSON] succeeds on it, and
    when the parser returns the dictionary that was written, [readJSON] of
    the text yields the same completed set, the same remote marker and the
    same [localMinSequence()]; the timestamp plays no part. *)
Theorem roundtrip_with_sentinel (fromJSON : string -> option Value)
        (gWriteTimestamps : bool) (now : Z) (ops : list Op) (c0 c1 : Checkpoint) :
  RemoteSequence.wf (_remote c0) ->
  Forall op_u64 ops ->
  Forall op_keeps_sentinel ops ->
  (forall doc,
      toDict gWriteTimestamps now (run ops (after (resetLocal c0))) = Some doc ->
      fromJSON (Value_toJSON (VDict doc)) = Some (VDict doc)) ->
  exists text,
    toJSON gWriteTimestamps now (run ops (after (resetLocal c0))) = Some text
    /\ _completed (after (readJSON fromJSON (Some text) c1))
       = _completed (run ops (after (resetLocal c0)))
    /\ _remote (after (readJSON fromJSON (Some text) c1))
       = _remote (run ops (after (resetLocal c0)))
    /\ localMinSequence (after (readJSON fromJSON (Some text) c1))
       = localMinSequence (run ops (after (resetLocal c0))).
Proof.
  intros Wr Hu Hk Hparse.
  set (c := run ops (after (resetLocal c0))) in *.
  assert (Hreset : has_sentinel (after (resetLocal c0))).
  { rewrite resetLocal_run. unfold after, has_sentinel, SequenceSet.wf; simpl.
    pose proof two64_gt_1. intuition lia. }
  destruct (run_has_sentinel ops _ Hu Hk Hreset) as [Hs Hrem].
  fold c in Hs, Hrem.
  assert (Wc : RemoteSequence.wf (_remote c)).
  { rewrite Hrem, resetLocal_run. exact Wr. }
  destruct (has_sentinel_first c Hs) as (last & rest & E & Hlast & Hrest).
  assert (Hmin : localMinSequence c = Some (u64 (last - 1))).
  { unfold localMinSequence. rewrite E. reflexivity. }
  destruct (toDict gWriteTimestamps now c) as [doc|] eqn:Hdoc;
    [|unfold toDict in Hdoc; rewrite Hmin in Hdoc; discriminate Hdoc].
  specialize (Hparse doc eq_refl).
  destruct (toDict_lookup _ _ _ _ _ Hmin Hdoc) as (Gr & Gc & Gl).
  exists (Value_toJSON (VDict doc)).
  assert (Hcompleted :
            _completed (after (readJSON fromJSON (Some (Value_toJSON (VDict doc))) c1))
            = _completed c).
  { rewrite readJSON_run, Hparse. simpl asDict. rewrite readDict_run.
    unfold after; simpl. rewrite Gc, Gl, E. apply read_back_completed; assumption. }
  split; [unfold toJSON; rewrite Hdoc; reflexivity|].
  split; [exact Hcompleted|].
  split.
  - rewrite readJSON_run, Hparse. simpl asDict. rewrite readDict_run.
    unfold after; simpl. rewrite Gr. apply of_value_toValue. exact Wc.
  - unfold localMinSequence. rewrite Hcompleted. reflexivity.
Qed.

Ltac solve_u64 := unfold is_u64; split; [lia | reflexivity].

(** C4, an instance: a checkpoint with remote marker 7 on which the ranges
    [[5,8)] and [[1,3)] were completed and sequence 6 was marked pending is
    written with a timestamp and read back with the same completed set,
    marker and minimum sequence. *)
Lemma roundtrip_with_sentinel_witness :
  exists text,
    toJSON true 1000000 (run sparse_ops (after (resetLocal remote_7))) = Some text
    /\ _completed (after (readJSON (parser_of [VDict sparse_doc]) (Some text) local_5_10))
       = [(0, 3); (5, 6); (7, 8)]
    /\ _remote (after (readJSON (parser_of [VDict sparse_doc]) (Some text) local_5_10))
       = RemoteSequence.Integer 7
    /\ localMinSequence
         (after (readJSON (parser_of [VDict sparse_doc]) (Some text) local_5_10))
       = Some 2.
Proof.
  destruct (roundtrip_with_sentinel (parser_of [VDict sparse_doc]) true 1000000
              sparse_ops remote_7 local_5_10) as (text & Ht & Hc & Hr & Hm).
  - simpl. solve_u64.
  - unfold sparse_ops. repeat constructor; simpl; lia.
  - unfold sparse_ops. repeat constructor; simpl; discriminate.
  - intros doc Hdoc. vm_compute in Hdoc. injection Hdoc as <-.
    vm_compute. reflexivity.
  - exists text. rewrite Hc, Hr, Hm. split; [exact Ht|]. repeat split.
Defined.

(** C4, a reachable checkpoint that does not survive the round trip: after
    [add(5, 8)] and [remove(0)] on a new checkpoint the completed set is
    [{[5,8)}]; it is written as [local = 7] alone and read back as
    [{[0,8)}]. *)
Lemma roundtrip_without_sentinel :
  _completed (run [OpAdd 5 8; OpRemove 0] new_checkpoint) = [(5, 8)]
  /\ toDict false 0 (run [OpAdd 5 8; OpRemove 0] new_checkpoint)
     = Some [("local"%string, VInt 7)]
  /\ _completed
       (after (readJSON (parser_of [VDict [("local"%string, VInt 7)]])
                 (toJSON false 0 (run [OpAdd 5 8; OpRemove 0] new_checkpoint))
                 new_checkpoint))
     = [(0, 8)]
  /\ SequenceSet.eqb [(0, 8)] [(5, 8)] = false.
Proof. repeat split. Qed.

(** * Further properties of the checkpoint operations *)

(** ** setRemoteMinSequence *)

(** X1. [setRemoteMinSequence(s)] leaves the marker equal to [s], touches
    neither the completed set nor [lastChecked], logs nothing, and returns
    true exactly when [s] differs from the marker held before; repeated with
    the same [s] it returns false. *)
Theorem setRemoteMinSequence_changes (s : RemoteSequence.t) (c : Checkpoint) :
  _remote (after (setRemoteMinSequence s c)) = s
  /\ _completed (after (setRemoteMinSequence s c)) = _completed c
  /\ _lastChecked (after (setRemoteMinSequence s c)) = _lastChecked c
  /\ logged (setRemoteMinSequence s c) = []
  /\ (returned (setRemoteMinSequence s c) = true <-> s <> _remote c)
  /\ returned (setRemoteMinSequence s (after (setRemoteMinSequence s c))) = false.
Proof.
  unfold setRemoteMinSequence, bind, get, set_remote, ret, after, returned, logged.
  cbn [fst snd].
  destruct (RemoteSequence.eqb s (_remote c)) eqn:E; cbn [fst snd app].
  - rewrite E. cbn [fst snd].
    apply RemoteSequenceFacts.marker_eqb_eq in E.
    repeat split; auto; try congruence; try discriminate.
  - cbn [_remote]. rewrite RemoteSequenceFacts.marker_eqb_refl. cbn [fst snd].
    apply RemoteSequenceFacts.marker_eqb_neq in E.
    repeat split; auto.
Qed.

(** ** addPendingSequence *)

(** X2. [addPendingSequence(s)] never lowers [lastChecked] and raises it to
    at least [s]; it keeps the remote marker; and on a completed set in
    canonical form it removes [s] and no other sequence. *)
Theorem addPendingSequence_effect (s : Z) (c : Checkpoint) :
  SequenceSet.wf (_completed c) ->
  _lastChecked c <= _lastChecked (after (addPendingSequence s c))
  /\ s <= _lastChecked (after (addPendingSequence s c))
  /\ _remote (after (addPendingSequence s c)) = _remote c
  /\ SequenceSet.wf (_completed (after (addPendingSequence s c)))
  /\ forall x,
       SequenceSet.contains (_completed (after (addPendingSequence s c))) x
       = SequenceSet.contains (_completed c) x && negb (x =? s).
Proof.
  intros W. rewrite addPendingSequence_run. unfold after. cbn [fst snd].
  cbn [_lastChecked _remote _completed].
  split; [lia|]. split; [lia|]. split; [reflexivity|]. split.
  - apply SequenceSetFacts.wf_remove. exact W.
  - intros x. apply (SequenceSetFacts.contains_remove _ (-1)). exact W.
Qed.

Lemma addPendingSequence_effect_witness :
  _lastChecked (after (addPendingSequence 11 local_5_10)) = 11
  /\ SequenceSet.contains (_completed (after (addPendingSequence 6 local_5_10))) 6
     = false
  /\ SequenceSet.contains (_completed (after (addPendingSequence 6 local_5_10))) 7
     = true.
Proof.
  assert (W : SequenceSet.wf (_completed local_5_10)).
  { unfold SequenceSet.wf; simpl. assert (10 < two64) by reflexivity. lia. }
  destruct (addPendingSequence_effect 6 local_5_10 W) as (_ & _ & _ & _ & H).
  split; [reflexivity|]. rewrite !H. split; reflexivity.
Defined.

(** ** readJSON *)

(** X3. [readJSON] keeps nothing of the checkpoint it is called on: the
    state afterwards depends on the text alone, and [lastChecked] is 0.  It
    logs exactly when it was given a text that does not parse; a null slice
    and a document that is not a dictionary are read silently as a new
    checkpoint. *)
Theorem readJSON_overwrites (fromJSON : string -> option Value)
        (json : option string) (c1 c2 : Checkpoint) :
  after (readJSON fromJSON json c1) = after (readJSON fromJSON json c2)
  /\ _lastChecked (after (readJSON fromJSON json c1)) = 0
  /\ (logged (readJSON fromJSON json c1) <> [] <->
      exists text, json = Some text /\ fromJSON text = None)
  /\ (asDict (match json with Some text => fromJSON text | None => None end) = None ->
      after (readJSON fromJSON json c1) = new_checkpoint).
Proof.
  split; [|split; [|split]].
  - rewrite !readJSON_run, !readDict_run. reflexivity.
  - rewrite readJSON_run, readDict_run. unfold after. cbn [fst snd].
    destruct (asDict _); reflexivity.
  - unfold readJSON, bind, logged.
    destruct json as [text|].
    + destruct (fromJSON text) as [root|] eqn:E; unfold log, ret;
        cbn beta iota; rewrite readDict_run; cbn [snd app].
      * split; [congruence|]. intros (t & Ht & Hf).
        injection Ht as <-. congruence.
      * split; [|discriminate]. intros _. exists text. auto.
    + unfold ret. cbn beta iota. rewrite readDict_run. cbn [snd app].
      split; [congruence|]. intros (t & Ht & _). discriminate Ht.
  - intros Hnone. rewrite readJSON_run, Hnone, readDict_run. reflexivity.
Qed.

(** ** toJSON *)

(** X4. [toJSON] fails (the assertion of [localMinSequence]) exactly on an
    empty completed set.  In the dictionary it writes, [time] is present
    exactly when timestamps are enabled, [local] exactly when the minimum
    sequence is above 0, [localCompleted] exactly when there is more than
    one range, and [remote] exactly when the marker is not empty. *)
Theorem toJSON_fields (gWriteTimestamps : bool) (now : Z) (c : Checkpoint) :
  (toJSON gWriteTimestamps now c = None <-> _completed c = [])
  /\ forall doc,
       toDict gWriteTimestamps now c = Some doc ->
       toJSON gWriteTimestamps now c = Some (Value_toJSON (VDict doc))
       /\ (dict_get doc "time" <> None <-> gWriteTimestamps = true)
       /\ (dict_get doc "local" <> None <->
           exists minSeq, localMinSequence c = Some minSeq /\ 0 < minSeq)
       /\ (dict_get doc "localCompleted" <> None <->
           1 < SequenceSet.rangesCount (_completed c))
       /\ (dict_get doc "remote" <> None <-> _remote c <> RemoteSequence.Empty).
Proof.
  split.
  - unfold toJSON, toDict, localMinSequence.
    destruct (_completed c) as [|[first last] rest]; cbn [option_map].
    + split; reflexivity.
    + split; discriminate.
  - intros doc Hdoc.
    split; [unfold toJSON; rewrite Hdoc; reflexivity|].
    destruct (localMinSequence c) as [minSeq|] eqn:Hmin;
      [|unfold toDict in Hdoc; rewrite Hmin in Hdoc; discriminate Hdoc].
    destruct (toDict_lookup _ _ _ _ _ Hmin Hdoc) as (Gr & Gc & Gl).
    rewrite Gr, Gc, Gl.
    split; [|split; [|split]].
    + unfold toDict in Hdoc. rewrite Hmin in Hdoc. injection Hdoc as <-.
      destruct gWriteTimestamps; cbn [app dict_get String.eqb].
      * split; [reflexivity | discriminate].
      * destruct (0 <? minSeq),
          (1 <? SequenceSet.rangesCount (_completed c)),
          (RemoteSequence.nonempty (_remote c));
          (split; [intros H; exfalso; apply H; reflexivity | discriminate]).
    + destruct (Z.ltb_spec 0 minSeq).
      * split; [intros _; eauto | discriminate].
      * split; [congruence|]. intros (m & Hm & Hpos).
        injection Hm as <-. lia.
    + destruct (Z.ltb_spec 1 (SequenceSet.rangesCount (_completed c))).
      * split; [auto | discriminate].
      * split; [congruence | lia].
    + destruct (_remote c); cbn [RemoteSequence.nonempty];
        split; congruence.
Qed.

Lemma write_ranges_pairs_after (s : SequenceSet.t) : forall lo,
  -1 <= lo -> SequenceSet.wf_after lo s ->
  write_ranges s = flatten_pairs (map range_pair s)
  /\ Forall (fun p => is_u64 (fst p) /\ 0 < snd p < two64) (map range_pair s)
  /\ List.length (write_ranges s) = (2 * List.length s)%nat.
Proof.
  induction s as [|[a b] rest IH]; intros lo Hlo W.
  - repeat split. constructor.
  - simpl in W. destruct W as (Ha & Hab & Hb & W).
    destruct (IH b ltac:(lia) W) as (E & F & N).
    assert (Ua : u64 a = a) by (apply u64_small; unfold is_u64; lia).
    assert (Ul : u64 (b - a) = b - a) by (apply u64_small; unfold is_u64; lia).
    split; [|split].
    + cbn [write_ranges map]. rewrite Ua, Ul, E. reflexivity.
    + cbn [map]. constructor; [|exact F].
      unfold range_pair, is_u64; cbn [fst snd]. lia.
    + cbn [write_ranges List.length]. rewrite N. lia.
Qed.

(** X5. For a completed set in canonical form, the array [toJSON] writes is
    the ranges in order, each as the pair of its first sequence and its
    length, with every length positive: an array of even length that
    [readDict] reads pair by pair. *)
Theorem write_ranges_pairs (s : SequenceSet.t) :
  SequenceSet.wf s ->
  write_ranges s = flatten_pairs (map range_pair s)
  /\ Forall (fun p => is_u64 (fst p) /\ 0 < snd p < two64) (map range_pair s)
  /\ List.length (write_ranges s) = (2 * List.length s)%nat.
Proof.
  intros W. apply (write_ranges_pairs_after s (-1)); [lia | exact W].
Qed.

Lemma write_ranges_pairs_witness :
  write_ranges (_completed local_100) = [VInt 0; VInt 3; VInt 5; VInt 5].
Proof.
  destruct (write_ranges_pairs (_completed local_100)) as (E & _ & _).
  - unfold SequenceSet.wf; simpl. assert (10 < two64) by reflexivity. lia.
  - rewrite E. reflexivity.
Defined.

(** ** readDict *)

Lemma contains_add_pairs (pairs : list (Z * Z)) : forall s x,
  SequenceSet.contains (add_pairs pairs s) x
  = SequenceSet.contains s x || existsb (pair_covers x) pairs.
Proof.
  induction pairs as [|p rest IH]; intros s x.
  - simpl. rewrite orb_false_r. reflexivity.
  - cbn [add_pairs fold_left existsb]. fold (add_pairs rest).
    change (fold_left
              (fun (s0 : SequenceSet.t) (p0 : Z * Z) =>
                 SequenceSet.add (fst p0) (u64 (fst p0 + snd p0)) s0) rest
              (SequenceSet.add (fst p) (u64 (fst p + snd p)) s))
      with (add_pairs rest (SequenceSet.add (fst p) (u64 (fst p + snd p)) s)).
    rewrite IH, SequenceSetFacts.contains_add. unfold pair_covers.
    destruct ((fst p <=? x) && (x <? u64 (fst p + snd p))),
      (SequenceSet.contains s x), (existsb (pair_covers x) rest); reflexivity.
Qed.

(** X6. Reading a [localCompleted] array of (first, length) pairs, in any
    order and overlapping or not, yields a set in canonical form that holds
    the sentinel 0 and exactly the sequences of the ranges
    [[first, first+length)], the end computed in [uint64_t]: a pair of
    length 0 or whose end wraps around adds nothing. *)
Theorem readDict_sequences (root : Dict) (pairs : list (Z * Z))
        (c : Checkpoint) (x : Z) :
  Forall (fun p => is_u64 (fst p) /\ is_u64 (snd p)) pairs ->
  dict_get root "localCompleted" = Some (VArray (flatten_pairs pairs)) ->
  SequenceSet.wf (_completed (after (readDict (Some root) c)))
  /\ SequenceSet.contains (_completed (after (readDict (Some root) c))) x
     = (x =? 0) || existsb (pair_covers x) pairs.
Proof.
  intros Hall Hget. rewrite readDict_run. unfold after. cbn [fst snd _completed].
  rewrite Hget. cbn [asArray]. split.
  - apply (read_ranges_preserves SequenceSet.wf).
    + intros a b s Ha Hb W. unfold is_u64 in *.
      apply SequenceSetFacts.wf_add; [lia | lia | exact W].
    + unfold SequenceSet.wf; simpl. pose proof two64_gt_1. lia.
  - rewrite read_ranges_flatten by exact Hall.
    rewrite contains_add_pairs. f_equal.
    unfold SequenceSet.contains, SequenceSet.in_range; simpl.
    cmp; simpl; try reflexivity; lia.
Qed.

Lemma readDict_sequences_witness :
  SequenceSet.contains
    (_completed
       (after (readDict
                 (Some [("localCompleted"%string,
                         VArray (flatten_pairs [(5, 3); (2, 4); (9, 0)]))])
                 local_5_10))) 6 = true
  /\ SequenceSet.contains
       (_completed
          (after (readDict
                    (Some [("localCompleted"%string,
                            VArray (flatten_pairs [(5, 3); (2, 4); (9, 0)]))])
                    local_5_10))) 9 = false.
Proof.
  assert (Hall : Forall (fun p => is_u64 (fst p) /\ is_u64 (snd p))
                   [(5, 3); (2, 4); (9, 0)]).
  { repeat constructor; simpl; lia. }
  split.
  - destruct (readDict_sequences
                [("localCompleted"%string,
                  VArray (flatten_pairs [(5, 3); (2, 4); (9, 0)]))]
                [(5, 3); (2, 4); (9, 0)] local_5_10 6 Hall eq_refl) as [_ H].
    etransitivity; [exact H | reflexivity].
  - destruct (readDict_sequences
                [("localCompleted"%string,
                  VArray (flatten_pairs [(5, 3); (2, 4); (9, 0)]))]
                [(5, 3); (2, 4); (9, 0)] local_5_10 9 Hall eq_refl) as [_ H].
    etransitivity; [exact H | reflexivity].
Defined.

(** X7. A document without a [localCompleted] array is read as the single
    range from 0 to [local] + 1, the sum taken in [uint64_t]: a missing
    [local] reads as 0, and a [local] of -1 wraps to an empty range, both
    giving the new set [{[0,1)}].  The completed set is then one range that
    starts at 0. *)
Theorem readDict_legacy (root : Dict) (c : Checkpoint) :
  asArray (dict_get root "localCompleted") = None ->
  _completed (after (readDict (Some root) c))
  = [(0, Z.max 1 (u64 (asInt (dict_get root "local") + 1)))]
  /\ (dict_get root "local" = None ->
      _completed (after (readDict (Some root) c)) = [(0, 1)])
  /\ (dict_get root "local" = Some (VInt (-1)) ->
      _completed (after (readDict (Some root) c)) = [(0, 1)]).
Proof.
  intros Harr.
  assert (E : _completed (after (readDict (Some root) c))
              = [(0, Z.max 1 (u64 (asInt (dict_get root "local") + 1)))]).
  { rewrite readDict_run. unfold after. cbn [fst snd _completed].
    rewrite Harr.
    replace (u64 (u64 (asInt (dict_get root "local")) + 1))
      with (u64 (asInt (dict_get root "local") + 1))
      by (unfold u64; rewrite Zplus_mod_idemp_l; reflexivity).
    pose proof (u64_range (asInt (dict_get root "local") + 1)) as R.
    unfold is_u64 in R.
    set (n := u64 (asInt (dict_get root "local") + 1)) in *.
    unfold SequenceSet.add. destruct (Z.ltb_spec 0 n).
    - simpl. destruct (Z.ltb_spec n 0); [lia|].
      f_equal. f_equal. lia.
    - f_equal. f_equal. lia. }
  split; [exact E|]. split; intros H; rewrite E, H; reflexivity.
Qed.

Lemma readDict_legacy_witness :
  _completed (after (readDict (Some [("local"%string, VInt 41)]) local_5_10))
  = [(0, 42)].
Proof.
  destruct (readDict_legacy [("local"%string, VInt 41)] local_5_10 eq_refl)
    as (E & _).
  etransitivity; [exact E | reflexivity].
Defined.

(** ** validateWith, further *)

Lemma validateWith_silent (L P : Checkpoint) :
  logged (validateWith P L) = [] <->
  SequenceSet.eqb (_completed L) (_completed P) = true
  /\ RemoteSequence.nonempty (_remote L)
     && negb (RemoteSequence.eqb (_remote L) (_remote P)) = false.
Proof.
  destruct L as [cL lL rL], P as [cP lP rP].
  unfold validateWith, bind, get, log, set_completed, set_remote, ret, logged.
  cbn [_completed _remote _lastChecked].
  destruct (SequenceSet.eqb cL cP); cbn [negb fst snd app];
    destruct rL as [|mine|mine], rP as [|theirs|theirs];
    cbn [RemoteSequence.nonempty RemoteSequence.eqb RemoteSequence.intValue
           andb negb fst snd app _remote _completed _lastChecked];
    try (destruct (mine =? theirs);
         cbn [andb negb fst snd app _remote _completed _lastChecked]);
    try (destruct (theirs <? mine);
         cbn [andb negb fst snd app _remote _completed _lastChecked]);
    try (destruct (String.eqb mine theirs);
         cbn [andb negb fst snd app _remote _completed _lastChecked]);
    split; try (intros [? ?]); try discriminate; auto.
Qed.

(** X8. [validateWith] logs nothing exactly when the two completed sets are
    equal and the local marker is empty or equal to the peer's; so every
    call that returns false has logged the mismatch it found. *)
Theorem validateWith_logs (L P : Checkpoint) :
  (logged (validateWith P L) = [] <->
   _completed L = _completed P
   /\ (_remote L = RemoteSequence.Empty \/ _remote L = _remote P))
  /\ (returned (validateWith P L) = false -> logged (validateWith P L) <> []).
Proof.
  assert (Hrem : RemoteSequence.nonempty (_remote L)
                 && negb (RemoteSequence.eqb (_remote L) (_remote P)) = false
                 <-> (_remote L = RemoteSequence.Empty \/ _remote L = _remote P)).
  { destruct (RemoteSequence.eqb (_remote L) (_remote P)) eqn:E.
    - apply RemoteSequenceFacts.marker_eqb_eq in E.
      rewrite andb_false_r. split; auto.
    - apply RemoteSequenceFacts.marker_eqb_neq in E. rewrite andb_true_r.
      destruct (_remote L); simpl;
        split; auto; try discriminate; intros [H | H]; congruence. }
  split.
  - rewrite validateWith_silent, SequenceSetFacts.set_eqb_eq, Hrem. tauto.
  - intros Hfalse Hnil. apply validateWith_silent in Hnil.
    destruct Hnil as [Ec Er].
    destruct (validateWith_run L P) as [_ Hret].
    cbv zeta in Hret. rewrite Ec, Er in Hret. simpl in Hret. congruence.
Qed.

(** X9. When both the local and the peer marker are integers, [validateWith]
    leaves the smaller of the two: the remote marker is never advanced. *)
Theorem validateWith_numeric_min (L P : Checkpoint) (mine theirs : Z) :
  _remote L = RemoteSequence.Integer mine ->
  _remote P = RemoteSequence.Integer theirs ->
  _remote (after (validateWith P L)) = RemoteSequence.Integer (Z.min mine theirs).
Proof.
  intros HL HP. destruct (validateWith_run L P) as [Hafter _].
  rewrite Hafter. cbv zeta. cbn [_remote]. rewrite HL, HP.
  cbn [RemoteSequence.nonempty RemoteSequence.eqb RemoteSequence.intValue andb].
  destruct (Z.eqb_spec mine theirs); cbn [negb].
  - subst. rewrite Z.min_id. reflexivity.
  - destruct (Z.ltb_spec theirs mine); f_equal; lia.
Qed.

Lemma validateWith_numeric_min_witness :
  _remote (after (validateWith peer_50 local_100)) = RemoteSequence.Integer 50.
Proof.
  exact (validateWith_numeric_min local_100 peer_50 100 50 eq_refl eq_refl).
Defined.

(** X10. On completed sets in canonical form, after [L.validateWith(P)] the
    local completed set is in canonical form and holds exactly the sequences
    that both [L] and [P] held, whether or not the two sets were equal. *)
Theorem validateWith_common_sequences (L P : Checkpoint) (x : Z) :
  SequenceSet.wf (_completed L) ->
  SequenceSet.wf (_completed P) ->
  SequenceSet.wf (_completed (after (validateWith P L)))
  /\ SequenceSet.contains (_completed (after (validateWith P L))) x
     = SequenceSet.contains (_completed L) x
       && SequenceSet.contains (_completed P) x.
Proof.
  intros WL WP. destruct (validateWith_run L P) as [Hafter _].
  rewrite Hafter. cbv zeta. cbn [_completed].
  destruct (SequenceSet.eqb (_completed L) (_completed P)) eqn:E.
  - apply SequenceSetFacts.set_eqb_eq in E. rewrite <- E.
    split; [exact WL|]. destruct (SequenceSet.contains (_completed L) x); reflexivity.
  - split; [apply SequenceSetFacts.wf_intersection; assumption|].
    apply SequenceSetFacts.contains_intersection; assumption.
Qed.

Lemma validateWith_common_sequences_witness :
  SequenceSet.contains (_completed (after (validateWith peer_50 local_100))) 8 = true
  /\ SequenceSet.contains (_completed (after (validateWith peer_50 local_100))) 5 = false.
Proof.
  assert (WL : SequenceSet.wf (_completed local_100)).
  { unfold SequenceSet.wf; simpl. assert (10 < two64) by reflexivity. lia. }
  assert (WP : SequenceSet.wf (_completed peer_50)).
  { unfold SequenceSet.wf; simpl. assert (12 < two64) by reflexivity. lia. }
  split.
  - destruct (validateWith_common_sequences local_100 peer_50 8 WL WP) as [_ H].
    etransitivity; [exact H | reflexivity].
  - destruct (validateWith_common_sequences local_100 peer_50 5 WL WP) as [_ H].
    etransitivity; [exact H | reflexivity].
Defined.

(** ** resetLocal *)

(** X11. Whatever the checkpoint held, after [resetLocal] nothing is
    pending, the minimum sequence is 0, the remote marker is the one held
    before, a second [resetLocal] changes nothing, and the document written
    has neither [local] nor [localCompleted]. *)
Theorem resetLocal_fresh (c : Checkpoint) :
  _remote (after (resetLocal c)) = _remote c
  /\ pendingSequenceCount (after (resetLocal c)) = 0
  /\ localMinSequence (after (resetLocal c)) = Some 0
  /\ after (resetLocal (after (resetLocal c))) = after (resetLocal c)
  /\ forall gWriteTimestamps now,
       exists doc,
         toDict gWriteTimestamps now (after (resetLocal c)) = Some doc
         /\ dict_get doc "local" = None
         /\ dict_get doc "localCompleted" = None.
Proof.
  rewrite !resetLocal_run. unfold after. cbn [fst snd _remote].
  repeat split.
  intros gWriteTimestamps now. unfold toDict, localMinSequence.
  cbn [_completed _remote]. change (u64 (1 - 1)) with 0.
  cbn [Z.ltb Z.compare SequenceSet.rangesCount List.length Z.of_nat].
  eexists. split; [reflexivity|].
  destruct gWriteTimestamps, (RemoteSequence.nonempty (_remote c));
    split; reflexivity.
Qed.

(** ** localMinSequence *)

(** X12. On a checkpoint that satisfies the sentinel invariant,
    [localMinSequence()] is the end of the unbroken run of completed
    sequences that starts at 0: every sequence from 0 up to it is completed
    and the next one is not. *)
Theorem localMinSequence_unbroken_run (c : Checkpoint) :
  has_sentinel c ->
  exists m,
    localMinSequence c = Some m
    /\ 0 <= m
    /\ (forall x, 0 <= x <= m -> SequenceSet.contains (_completed c) x = true)
    /\ SequenceSet.contains (_completed c) (m + 1) = false.
Proof.
  intros Hs. destruct (has_sentinel_first c Hs) as (b & rest & E & Hb & Hrest).
  exists (b - 1). unfold localMinSequence. rewrite E.
  assert (U : u64 (b - 1) = b - 1) by (apply u64_small; unfold is_u64; lia).
  rewrite U. split; [reflexivity|]. split; [lia|]. split.
  - intros x Hx. rewrite SequenceSetFacts.contains_cons.
    apply orb_true_iff. left. cmp; simpl; try reflexivity; lia.
  - rewrite SequenceSetFacts.contains_cons.
    rewrite (SequenceSetFacts.contains_below rest b (b - 1 + 1) Hrest) by lia.
    cmp; simpl; try reflexivity; lia.
Qed.

Lemma localMinSequence_unbroken_run_witness :
  exists m,
    localMinSequence local_100 = Some m
    /\ 0 <= m
    /\ (forall x, 0 <= x <= m -> SequenceSet.contains (_completed local_100) x = true)
    /\ SequenceSet.contains (_completed local_100) (m + 1) = false.
Proof.
  apply (localMinSequence_unbroken_run local_100).
  split; [|reflexivity].
  unfold SequenceSet.wf; simpl. assert (10 < two64) by reflexivity. lia.
Defined.

(** X13. On a checkpoint that satisfies the sentinel invariant, marking a
    sequence [s] other than 0 as pending lowers [localMinSequence()] to
    [s - 1] when [s] lies within the unbroken run, and leaves it as it was
    otherwise: the minimum sequence never rises. *)
Theorem addPendingSequence_localMinSequence (s m : Z) (c : Checkpoint) :
  has_sentinel c ->
  is_u64 s -> s <> 0 ->
  localMinSequence c = Some m ->
  localMinSequence (after (addPendingSequence s c))
  = Some (if s <=? m then s - 1 else m).
Proof.
  intros Hs Hu Hnz Hm.
  destruct (has_sentinel_first c Hs) as (b & rest & E & Hb & Hrest).
  unfold localMinSequence in Hm. rewrite E in Hm.
  assert (U : u64 (b - 1) = b - 1) by (apply u64_small; unfold is_u64; lia).
  rewrite U in Hm. injection Hm as <-.
  rewrite addPendingSequence_run. unfold after, localMinSequence.
  cbn [fst snd _completed]. rewrite E. unfold is_u64 in Hu.
  cbn [SequenceSet.remove].
  destruct (Z.ltb_spec s 0); [lia|].
  destruct (Z.ltb_spec s b); destruct (Z.leb_spec s (b - 1)); try lia.
  - unfold SequenceSet.without. destruct (Z.ltb_spec 0 s); [|lia].
    cbn [app]. f_equal. apply u64_small. unfold is_u64. lia.
  - rewrite U. reflexivity.
Qed.

Lemma addPendingSequence_localMinSequence_witness :
  localMinSequence (after (addPendingSequence 2 local_100)) = Some 1
  /\ localMinSequence (after (addPendingSequence 7 local_100)) = Some 2.
Proof.
  assert (Hs : has_sentinel local_100).
  { split; [|reflexivity].
    unfold SequenceSet.wf; simpl. assert (10 < two64) by reflexivity. lia. }
  split.
  - etransitivity;
      [apply (addPendingSequence_localMinSequence 2 2 local_100 Hs) | reflexivity].
    + unfold is_u64. split; [lia | reflexivity].
    + discriminate.
    + reflexivity.
  - etransitivity;
      [apply (addPendingSequence_localMinSequence 7 2 local_100 Hs) | reflexivity].
    + unfold is_u64. split; [lia | reflexivity].
    + discriminate.
    + reflexivity.
Defined.

(** ** pendingSequenceCount, further *)

Lemma last_end_cons (r : Z * Z) (rest : SequenceSet.t) :
  rest <> [] -> last_end (r :: rest) = last_end rest.
Proof. destruct rest as [|r' rest']; [congruence | reflexivity]. Qed.

Lemma last_end_app (p q : SequenceSet.t) :
  q <> [] -> last_end (p ++ q) = last_end q.
Proof.
  intros Hq. induction p as [|r p' IH]; [reflexivity|].
  cbn [app]. rewrite last_end_cons; [exact IH|].
  destruct p'; [exact Hq | discriminate].
Qed.

Lemma completed_count_app (p q : SequenceSet.t) :
  completed_count (p ++ q) = completed_count p + completed_count q.
Proof.
  induction p as [|[a b] p' IH]; cbn [app completed_count]; [reflexivity|].
  rewrite IH. lia.
Qed.

Lemma completed_count_pos (s : SequenceSet.t) : forall lo,
  SequenceSet.wf_after lo s -> 0 <= completed_count s.
Proof.
  induction s as [|[a b] rest IH]; intros lo W; cbn [completed_count]; [lia|].
  simpl in W. destruct W as (_ & Hab & _ & W). specialize (IH b W). lia.
Qed.

(** The gaps in front of and between the ranges and the ranges themselves
    fill the sequences below the end of the last range. *)
Lemma gaps_and_ranges (rest : SequenceSet.t) : forall a b,
  a + gaps_between ((a, b) :: rest) + completed_count ((a, b) :: rest)
  = last_end ((a, b) :: rest).
Proof.
  induction rest as [|[c d] rest' IH]; intros a b.
  - unfold last_end. simpl. lia.
  - change (gaps_between ((a, b) :: (c, d) :: rest'))
      with ((c - b) + gaps_between ((c, d) :: rest')).
    change (completed_count ((a, b) :: (c, d) :: rest'))
      with ((b - a) + completed_count ((c, d) :: rest')).
    rewrite last_end_cons by discriminate.
    specialize (IH c d). lia.
Qed.

Lemma pending_balance (c : Checkpoint) :
  SequenceSet.wf (_completed c) ->
  _completed c <> [] ->
  is_u64 (_lastChecked c) ->
  pendingSequenceCount c + completed_count (_completed c)
  = Z.max (last_end (_completed c)) (_lastChecked c + 1).
Proof.
  intros W Hne Hlc. unfold pendingSequenceCount.
  destruct (_completed c) as [|[a b] rest] eqn:E; [congruence|].
  pose proof W as W'. unfold SequenceSet.wf in W'. simpl in W'.
  destruct W' as (Ha & Hab & Hb & Hrest).
  cbn [count_gaps].
  assert (Ua : u64 (0 + u64 (a - 0)) = a).
  { replace (a - 0) with a by lia.
    rewrite (u64_small a) by (unfold is_u64; lia).
    apply u64_small. unfold is_u64. lia. }
  rewrite Ua.
  destruct (count_gaps_between rest a b a W ltac:(lia)) as (Hrun & Hbound & Hend).
  rewrite Hrun.
  pose proof (gaps_and_ranges rest a b) as Hsum.
  pose proof (completed_count_pos rest b Hrest) as Hpos.
  cbn [completed_count] in *.
  set (G := gaps_between ((a, b) :: rest)) in *.
  set (E' := last_end ((a, b) :: rest)) in *.
  unfold is_u64 in Hlc.
  assert (E1 : u64 (E' - 1) = E' - 1) by (apply u64_small; unfold is_u64; lia).
  rewrite E1.
  destruct (Z.ltb_spec (E' - 1) (_lastChecked c)).
  - assert (E2 : u64 (_lastChecked c - (E' - 1)) = _lastChecked c - (E' - 1))
      by (apply u64_small; unfold is_u64; lia).
    rewrite E2.
    rewrite (u64_small (a + G + (_lastChecked c - (E' - 1))))
      by (unfold is_u64; lia).
    lia.
  - lia.
Qed.

(** X14. For a completed set in canonical form that is not empty, the
    pending count and the number of completed sequences add up to all the
    sequences below the end of the last range or up to [lastChecked],
    whichever reaches further: every sequence in that span is counted either
    as completed or as pending, also in front of the first range. *)
Theorem pendingSequenceCount_balance (c : Checkpoint) :
  SequenceSet.wf (_completed c) ->
  _completed c <> [] ->
  is_u64 (_lastChecked c) ->
  pendingSequenceCount c
  = Z.max (last_end (_completed c)) (_lastChecked c + 1)
    - completed_count (_completed c).
Proof.
  intros W Hne Hlc. pose proof (pending_balance c W Hne Hlc). lia.
Qed.

Lemma pendingSequenceCount_balance_witness :
  pendingSequenceCount local_100 = 13 - 8.
Proof.
  etransitivity; [apply (pendingSequenceCount_balance local_100) | reflexivity].
  - unfold SequenceSet.wf; simpl. assert (10 < two64) by reflexivity. lia.
  - discriminate.
  - unfold is_u64. split; [simpl; lia | reflexivity].
Defined.

Lemma remove_all (s : SequenceSet.t) : forall lo x,
  SequenceSet.wf_after lo s ->
  SequenceSet.contains s x = true ->
  SequenceSet.remove x s = [] -> s = [(x, x + 1)].
Proof.
  destruct s as [|[a b] rest]; intros lo x W Hin Hnil; [discriminate Hin|].
  simpl in W. destruct W as (Ha & Hab & Hb & Hrest).
  cbn [SequenceSet.remove] in Hnil.
  destruct (Z.ltb_spec x a); [discriminate Hnil|].
  destruct (Z.ltb_spec x b); [|discriminate Hnil].
  unfold SequenceSet.without in Hnil.
  destruct (Z.ltb_spec a x); [discriminate Hnil|].
  destruct (Z.ltb_spec (x + 1) b); [discriminate Hnil|].
  cbn [app] in Hnil. subst rest. f_equal. f_equal; lia.
Qed.

Lemma last_end_above (s : SequenceSet.t) : forall lo,
  SequenceSet.wf_after lo s -> s <> [] -> lo + 1 < last_end s.
Proof.
  induction s as [|[a b] rest IH]; intros lo W Hne; [congruence|].
  simpl in W. destruct W as (Ha & Hab & Hb & Hrest).
  destruct rest as [|r rest'].
  - unfold last_end. simpl. lia.
  - rewrite last_end_cons by discriminate.
    specialize (IH b Hrest ltac:(discriminate)). lia.
Qed.

Lemma completed_count_remove (s : SequenceSet.t) : forall lo x,
  SequenceSet.wf_after lo s ->
  SequenceSet.contains s x = true ->
  completed_count (SequenceSet.remove x s) = completed_count s - 1.
Proof.
  induction s as [|[a b] rest IH]; intros lo x W Hin; [discriminate Hin|].
  simpl in W. destruct W as (Ha & Hab & Hb & Hrest).
  rewrite SequenceSetFacts.contains_cons in Hin.
  cbn [SequenceSet.remove].
  destruct (Z.ltb_spec x a).
  - rewrite (SequenceSetFacts.contains_below rest b x Hrest) in Hin by lia.
    cmp_in Hin; simpl in Hin; try discriminate; lia.
  - destruct (Z.ltb_spec x b).
    + rewrite completed_count_app. cbn [completed_count].
      unfold SequenceSet.without.
      destruct (Z.ltb_spec a x); destruct (Z.ltb_spec (x + 1) b);
        cbn [app completed_count]; lia.
    + cbn [completed_count]. rewrite (IH b x Hrest); [lia|].
      destruct (SequenceSet.contains rest x); [reflexivity|].
      cmp_in Hin; simpl in Hin; try discriminate; lia.
Qed.

Lemma last_end_remove (s : SequenceSet.t) : forall lo x,
  SequenceSet.wf_after lo s ->
  SequenceSet.contains s x = true ->
  SequenceSet.remove x s <> [] ->
  x < last_end s
  /\ (last_end (SequenceSet.remove x s) = last_end s
      \/ (last_end s = x + 1 /\ last_end (SequenceSet.remove x s) <= x)).
Proof.
  induction s as [|[a b] rest IH]; intros lo x W Hin Hne; [discriminate Hin|].
  pose proof W as W'. simpl in W'. destruct W' as (Ha & Hab & Hb & Hrest).
  rewrite SequenceSetFacts.contains_cons in Hin.
  cbn [SequenceSet.remove] in *.
  destruct (Z.ltb_spec x a).
  - rewrite (SequenceSetFacts.contains_below rest b x Hrest) in Hin by lia.
    cmp_in Hin; simpl in Hin; try discriminate; lia.
  - destruct (Z.ltb_spec x b).
    + destruct rest as [|r rest'].
      * rewrite app_nil_r in *. unfold last_end at 1 3. cbn [List.last snd].
        unfold SequenceSet.without in *.
        destruct (Z.ltb_spec a x); destruct (Z.ltb_spec (x + 1) b);
          cbn [app] in *; unfold last_end; cbn [List.last snd];
          try (split; [lia | left; reflexivity]);
          try (split; [lia | right; lia]).
        congruence.
      * rewrite last_end_app by discriminate.
        rewrite last_end_cons by discriminate.
        pose proof (last_end_above (r :: rest') b Hrest ltac:(discriminate)).
        split; [lia | left; reflexivity].
    + assert (Hin' : SequenceSet.contains rest x = true).
      { destruct (SequenceSet.contains rest x); [reflexivity|].
        cmp_in Hin; simpl in Hin; try discriminate; lia. }
      assert (Hrne : rest <> []) by (intros ->; discriminate Hin').
      rewrite (last_end_cons (a, b) rest Hrne).
      destruct (SequenceSet.remove x rest) as [|r' rem] eqn:Erem.
      * pose proof (remove_all rest b x Hrest Hin' Erem) as ->.
        unfold last_end. cbn [List.last snd]. split; [lia | right; lia].
      * rewrite last_end_cons by discriminate. rewrite <- Erem.
        apply (IH b x Hrest Hin'). rewrite Erem. discriminate.
Qed.

(** X15. Marking as pending a sequence that was completed raises the pending
    count by exactly one, wherever the sequence lies in the set (inside a
    range, at an end of one, or last of all), as long as the completed set is
    in canonical form and keeps at least one sequence. *)
Theorem addPendingSequence_counts_one (s : Z) (c : Checkpoint) :
  SequenceSet.wf (_completed c) ->
  is_u64 (_lastChecked c) ->
  SequenceSet.contains (_completed c) s = true ->
  _completed (after (addPendingSequence s c)) <> [] ->
  pendingSequenceCount (after (addPendingSequence s c))
  = pendingSequenceCount c + 1.
Proof.
  intros W Hlc Hin Hne.
  assert (Hc : _completed c <> []) by (intros E; rewrite E in Hin; discriminate Hin).
  pose proof (pending_balance c W Hc Hlc) as B.
  rewrite addPendingSequence_run in *. unfold after in *.
  cbn [fst snd _completed] in Hne.
  destruct (last_end_remove (_completed c) (-1) s W Hin Hne) as (Hlt & Hend).
  pose proof (last_end_above (_completed c) (-1) W Hc) as Hpos.
  assert (Hs0 : 0 <= s).
  { destruct (Z.le_gt_cases 0 s) as [H|H]; [exact H|].
    rewrite (SequenceSetFacts.contains_below (_completed c) (-1) s W) in Hin by lia.
    discriminate Hin. }
  assert (Hend64 : last_end (_completed c) < two64).
  { destruct (_completed c) as [|[a b] rest]; [congruence|].
    apply (count_gaps_between rest a b 0 W).
    unfold SequenceSet.wf in W. simpl in W. lia. }
  set (c' := mkCheckpoint (SequenceSet.remove s (_completed c))
               (Z.max (_lastChecked c) s) (_remote c)).
  assert (B' : pendingSequenceCount c' + completed_count (_completed c')
               = Z.max (last_end (_completed c')) (_lastChecked c' + 1)).
  { apply pending_balance.
    - apply SequenceSetFacts.wf_remove. exact W.
    - exact Hne.
    - unfold is_u64 in *. cbn [c' _lastChecked]. lia. }
  cbn [c' _completed _lastChecked] in B'. cbn [fst snd]. fold c'.
  rewrite (completed_count_remove _ (-1) s W Hin) in B'.
  destruct Hend as [He | [He1 He2]]; [rewrite He in B'|]; lia.
Qed.

Lemma addPendingSequence_counts_one_witness :
  pendingSequenceCount local_100 = 5
  /\ pendingSequenceCount (after (addPendingSequence 9 local_100)) = 5 + 1.
Proof.
  split; [reflexivity|].
  etransitivity; [apply (addPendingSequence_counts_one 9 local_100) | reflexivity].
  - unfold SequenceSet.wf; simpl. assert (10 < two64) by reflexivity. lia.
  - unfold is_u64. split; [simpl; lia | reflexivity].
  - reflexivity.
  - discriminate.
Defined.

(** ** Composition of the operations *)

Lemma readDict_has_sentinel (root : option Dict) (c : Checkpoint) :
  has_sentinel (after (readDict root c)).
Proof.
  assert (Hfresh : SequenceSet.wf [(0, 1)]
                   /\ SequenceSet.contains [(0, 1)] 0 = true).
  { split; [|reflexivity].
    unfold SequenceSet.wf; simpl. pose proof two64_gt_1. lia. }
  rewrite readDict_run. unfold after, has_sentinel; cbn [fst snd].
  destruct root as [d|]; cbn [_completed]; [|exact Hfresh].
  destruct (asArray (dict_get d "localCompleted")) as [pending|].
  - apply (read_ranges_preserves
             (fun s => SequenceSet.wf s /\ SequenceSet.contains s 0 = true));
      [|exact Hfresh].
    intros a b s Ha Hb Hs. apply has_sentinel_add; assumption.
  - apply has_sentinel_add;
      [pose proof two64_gt_1; unfold is_u64; lia | apply u64_range | exact Hfresh].
Qed.

(** X16. [lastChecked] is not part of the document: whatever is read, the
    checkpoint read has [lastChecked] 0 and counts as pending only the
    sequences missing below the end of its last range. *)
Theorem readDict_pending (root : option Dict) (c : Checkpoint) :
  _lastChecked (after (readDict root c)) = 0
  /\ pendingSequenceCount (after (readDict root c))
     = last_end (_completed (after (readDict root c)))
       - completed_count (_completed (after (readDict root c))).
Proof.
  pose proof (readDict_has_sentinel root c) as Hs.
  assert (H0 : _lastChecked (after (readDict root c)) = 0).
  { rewrite readDict_run. unfold after. cbn [fst snd].
    destruct root; reflexivity. }
  split; [exact H0|].
  destruct (has_sentinel_first _ Hs) as (b & rest & E & Hb & Hrest).
  destruct Hs as [W _].
  assert (Hne : _completed (after (readDict root c)) <> [])
    by (rewrite E; discriminate).
  assert (Hlc : is_u64 (_lastChecked (after (readDict root c)))).
  { rewrite H0. pose proof two64_gt_1. unfold is_u64. lia. }
  pose proof (pending_balance _ W Hne Hlc) as B.
  pose proof (last_end_above _ (-1) W Hne) as Hpos.
  rewrite H0 in B. lia.
Qed.

(** X17. When both the local checkpoint and the peer's satisfy the sentinel
    invariant, [localMinSequence()] after [validateWith] is the smaller of
    the two minimum sequences: reconciliation never moves the local minimum
    forward. *)
Theorem validateWith_localMinSequence (L P : Checkpoint) (mL mP : Z) :
  has_sentinel L ->
  has_sentinel P ->
  localMinSequence L = Some mL ->
  localMinSequence P = Some mP ->
  localMinSequence (after (validateWith P L)) = Some (Z.min mL mP).
Proof.
  intros HsL HsP HL HP.
  destruct (has_sentinel_first L HsL) as (b1 & r1 & E1 & Hb1 & _).
  destruct (has_sentinel_first P HsP) as (b2 & r2 & E2 & Hb2 & _).
  unfold localMinSequence in HL, HP. rewrite E1 in HL. rewrite E2 in HP.
  assert (U1 : u64 (b1 - 1) = b1 - 1) by (apply u64_small; unfold is_u64; lia).
  assert (U2 : u64 (b2 - 1) = b2 - 1) by (apply u64_small; unfold is_u64; lia).
  rewrite U1 in HL. rewrite U2 in HP.
  injection HL as <-. injection HP as <-.
  destruct (validateWith_run L P) as [Hafter _].
  rewrite Hafter. cbv zeta. unfold localMinSequence. cbn [_completed].
  destruct (SequenceSet.eqb (_completed L) (_completed P)) eqn:E.
  - apply SequenceSetFacts.set_eqb_eq in E. rewrite E1, E2 in E.
    injection E as Eb _. subst b2. rewrite E1, U1, Z.min_id. reflexivity.
  - rewrite E1, E2, SequenceSetFacts.intersection_cons.
    unfold SequenceSet.overlap.
    destruct (Z.ltb_spec (Z.max 0 0) (Z.min b1 b2)); [|lia].
    cbn [app]. f_equal. rewrite u64_small by (unfold is_u64; lia). lia.
Qed.

Lemma validateWith_localMinSequence_witness :
  localMinSequence (after (validateWith peer_50 local_100)) = Some 2.
Proof.
  assert (HsL : has_sentinel local_100).
  { split; [|reflexivity].
    unfold SequenceSet.wf; simpl. assert (10 < two64) by reflexivity. lia. }
  assert (HsP : has_sentinel peer_50).
  { split; [|reflexivity].
    unfold SequenceSet.wf; simpl. assert (12 < two64) by reflexivity. lia. }
  exact (validateWith_localMinSequence local_100 peer_50 2 3 HsL HsP
           eq_refl eq_refl).
Defined.
